(** * tccc_simple: the retrieval pipeline of [src/tccc_simple.py]

    A shallow embedding of [SimpleTextSearch._create_chunks],
    [SimpleTextSearch.search_keywords], the prompt construction of
    [SimpleTCCCLLM.query] and [SimpleTCCCCLI.query], with the properties of
    the chunker, the relevance scorer, the context assembler and the query
    orchestrator proved or refuted on it; and of
    [SimpleTCCCProcessor.extract_text_simple], [SimpleTCCCCLI.initialize],
    [SimpleTCCCCLI.interactive] and [main], with what they do at their
    edges.

    Python [str] values are modelled as lists of 8-bit characters
    ([list ascii]); a character of the model is one code point in the range
    0..255 and [len], slicing and concatenation are the list operations.
    Python [int] values are [Z].

    Every line the program prints goes through [Console.print] of the
    library rich, which reads it as console markup and raises
    [MarkupError] when a closing tag closes nothing.  The lines that hold
    the question, the response, a page label, the path or the message of
    an exception can raise, and what follows such a print is not done; the
    parser and the tag stack of [rich.markup] are part of the model, the
    normal form of a style name and the evaluation of a handler tag are
    parameters of it.  A print raises nothing else in the model. *)

From Stdlib Require Import ZArith List Ascii String Bool Lia Permutation.
From Stdlib Require Import Sorting.Sorted DecimalString.
From stdpp Require Import base decidable countable gmap strings.
Import ListNotations.

Local Open Scope list_scope.
Local Open Scope bool_scope.

(** ** Python strings *)

Module Str.

Abbreviation str := (list ascii).

(** A string literal of the source. *)
Definition lit (s : string) : str := list_ascii_of_string s.

Definition len (s : str) : Z := Z.of_nat (length s).

(** Truthiness of a [str]: the empty string is falsy. *)
Definition truthy (s : str) : bool :=
  match s with [] => false | _ :: _ => true end.

Definition code (c : ascii) : N := N_of_ascii c.

(** [str.isspace] on one character: the code points below 256 that Python's
    [split()] and [strip()] treat as whitespace. *)
Definition is_space (c : ascii) : bool :=
  let n := code c in
  ((9 <=? n) && (n <=? 13) || (28 <=? n) && (n <=? 32)
   || (n =? 133) || (n =? 160))%N.

(** [str.lower] on one character: A-Z and the upper-case letters of the
    Latin-1 supplement (U+00C0..U+00DE without the multiplication sign). *)
Definition lower_char (c : ascii) : ascii :=
  let n := code c in
  if ((65 <=? n) && (n <=? 90)
      || (192 <=? n) && (n <=? 222) && negb (n =? 215))%N
  then ascii_of_N (n + 32) else c.

Definition lower (s : str) : str := map lower_char s.

(** [s.startswith(p)] *)
Fixpoint startswith (p s : str) : bool :=
  match p, s with
  | [], _ => true
  | _ :: _, [] => false
  | a :: p', b :: s' => Ascii.eqb a b && startswith p' s'
  end.

(** [sub in s] *)
Fixpoint contains (sub s : str) : bool :=
  startswith sub s ||
  match s with
  | [] => false
  | _ :: s' => contains sub s'
  end.

(** [s.count(sub)] scans left to right and, after a match, resumes behind
    it: [skip] is the number of characters of the last match still to be
    passed over. *)
Fixpoint count_from (sub : str) (skip : nat) (s : str) : Z :=
  match s with
  | [] => 0
  | _ :: s' =>
      match skip with
      | S k => count_from sub k s'
      | O => if startswith sub s
             then 1 + count_from sub (length sub - 1) s'
             else count_from sub 0 s'
      end
  end.

(** For the empty pattern Python counts the gaps between characters. *)
Definition count (s sub : str) : Z :=
  match sub with
  | [] => len s + 1
  | _ :: _ => count_from sub 0 s
  end.

Fixpoint lstrip (s : str) : str :=
  match s with
  | [] => []
  | c :: s' => if is_space c then lstrip s' else s
  end.

Definition rstrip (s : str) : str := rev (lstrip (rev s)).

(** [s.strip()] *)
Definition strip (s : str) : str := rstrip (lstrip s).

(** [s.split()]: the maximal runs of non-whitespace characters.  [word] is
    the run being read, reversed; an empty run yields no word. *)
Definition flush (word : str) : list str :=
  match word with [] => [] | _ :: _ => [rev word] end.

Fixpoint split_from (word : str) (s : str) : list str :=
  match s with
  | [] => flush word
  | c :: s' =>
      if is_space c then flush word ++ split_from [] s'
      else split_from (c :: word) s'
  end.

Definition split (s : str) : list str := split_from [] s.

(** [s.split(sep)] for a non-empty separator: every occurrence of [sep],
    found left to right, ends a field; empty fields are kept.  [fld] is the
    field being read, reversed. *)
Fixpoint split_on_from (sep : str) (skip : nat) (fld : str) (s : str)
  : list str :=
  match s with
  | [] => [rev fld]
  | c :: s' =>
      match skip with
      | S k => split_on_from sep k fld s'
      | O => if startswith sep s
             then rev fld :: split_on_from sep (length sep - 1) [] s'
             else split_on_from sep 0 (c :: fld) s'
      end
  end.

Definition split_on (s sep : str) : list str := split_on_from sep 0 [] s.

(** [sep.join(parts)] *)
Fixpoint join (sep : str) (parts : list str) : str :=
  match parts with
  | [] => []
  | [p] => p
  | p :: ps => p ++ sep ++ join sep ps
  end.

(** [s.replace(old, new)] for a non-empty [old]. *)
Fixpoint replace_from (old new : str) (skip : nat) (s : str) : str :=
  match s with
  | [] => []
  | c :: s' =>
      match skip with
      | S k => replace_from old new k s'
      | O => if startswith old s
             then new ++ replace_from old new (length old - 1) s'
             else c :: replace_from old new 0 s'
      end
  end.

Definition replace (s old new : str) : str := replace_from old new 0 s.

(** The terminators of the pattern [[.!?]+]. *)
Definition is_terminator (c : ascii) : bool :=
  Ascii.eqb c "." || Ascii.eqb c "!" || Ascii.eqb c "?".

(** [re.split(r'[.!?]+', s)]: the pieces of [s] between the maximal runs of
    terminators; a run at either end of [s] leaves an empty piece there. *)
Fixpoint re_split (s : str) : list str :=
  match s with
  | [] => [[]]
  | c :: s' =>
      match re_split s' with
      | [] => [[]]
      | p :: ps =>
          if is_terminator c then
            match s' with
            | c' :: _ => if is_terminator c' then p :: ps else [] :: p :: ps
            | [] => [] :: p :: ps
            end
          else (c :: p) :: ps
      end
  end.

(** [str(n)] *)
Definition of_int (n : Z) : str :=
  let digits := lit (NilEmpty.string_of_uint (N.to_uint (Z.abs_N n))) in
  if (n <? 0)%Z then lit "-" ++ digits else digits.

(** [s[:n]]: a negative bound counts from the end. *)
Definition slice_to {A : Type} (l : list A) (n : Z) : list A :=
  if (n <? 0)%Z then firstn (Z.to_nat (Z.of_nat (length l) + n)) l
  else firstn (Z.to_nat n) l.

(** [enumerate(l)] *)
Fixpoint enumerate_from {A : Type} (i : Z) (l : list A) : list (Z * A) :=
  match l with
  | [] => []
  | x :: l' => (i, x) :: enumerate_from (i + 1) l'
  end.

Definition enumerate {A : Type} (l : list A) : list (Z * A) :=
  enumerate_from 0 l.

End Str.

Import Str.

(** ** The chunker: [SimpleTextSearch._create_chunks] *)

Record Chunk := mkChunk {
  text : str;
  chunk_id : Z;
  page_info : str
}.

(** The page scan of a closed chunk: the first of its first ten lines that
    contains the marker, stripped; [page_match or "Unknown page"].  The
    source splits on the two characters backslash and n (its literal is
    written with a doubled backslash), which is what the literal below
    holds: no escape is interpreted in it. *)
Definition find_page_info (current_chunk : str) : str :=
  let lines := firstn 10 (split_on current_chunk (lit "\n")) in
  match List.find (contains (lit "--- Page")) lines with
  | Some line =>
      let page_match := strip line in
      if truthy page_match then page_match else lit "Unknown page"
  | None => lit "Unknown page"
  end.

(** The variables of the loop. *)
Record Chunker := mkChunker {
  chunks : list Chunk;
  current_chunk : str;
  next_id : Z
}.

Definition chunker_init : Chunker := mkChunker [] [] 0.

(** Whether [sentence] closes the running buffer. *)
Definition overflows (chunk_size : Z) (current_chunk sentence : str) : bool :=
  (len (current_chunk ++ sentence) >? chunk_size)%Z && truthy current_chunk.

(** One iteration of [for sentence in sentences]. *)
Definition chunk_step (chunk_size : Z) (st : Chunker) (sentence : str)
  : Chunker :=
  if overflows chunk_size (current_chunk st) sentence then
    mkChunker
      (chunks st ++ [mkChunk (strip (current_chunk st)) (next_id st)
                             (find_page_info (current_chunk st))])
      sentence
      (next_id st + 1)
  else
    mkChunker (chunks st) (current_chunk st ++ sentence ++ lit ".")
              (next_id st).

Definition chunk_loop (chunk_size : Z) (sentences : list str) : Chunker :=
  fold_left (chunk_step chunk_size) sentences chunker_init.

(** The final chunk, added when the leftover buffer is not blank. *)
Definition chunk_finish (st : Chunker) : list Chunk :=
  if truthy (strip (current_chunk st)) then
    chunks st ++ [mkChunk (strip (current_chunk st)) (next_id st)
                          (lit "Final chunk")]
  else chunks st.

Definition create_chunks (text : str) (chunk_size : Z) : list Chunk :=
  chunk_finish (chunk_loop chunk_size (re_split text)).

Definition default_chunk_size : Z := 1000.

(** *** The chunker with the origin of every chunk

    The same loop, recording next to the buffer the sentences that were put
    into it ([group]) and next to every chunk the sentences it was built
    from.  [origins_erase] shows that forgetting the record gives
    [create_chunks]. *)

Record Traced := mkTraced {
  closed : list (Chunk * list str);
  buffer : str;
  group : list str;
  ident : Z
}.

Definition traced_init : Traced := mkTraced [] [] [] 0.

Definition traced_step (chunk_size : Z) (st : Traced) (sentence : str)
  : Traced :=
  if overflows chunk_size (buffer st) sentence then
    mkTraced
      (closed st ++ [(mkChunk (strip (buffer st)) (ident st)
                              (find_page_info (buffer st)), group st)])
      sentence [sentence] (ident st + 1)
  else
    mkTraced (closed st) (buffer st ++ sentence ++ lit ".")
             (group st ++ [sentence]) (ident st).

Definition traced_loop (chunk_size : Z) (sentences : list str) : Traced :=
  fold_left (traced_step chunk_size) sentences traced_init.

Definition traced_finish (st : Traced) : list (Chunk * list str) :=
  if truthy (strip (buffer st)) then
    closed st ++ [(mkChunk (strip (buffer st)) (ident st)
                           (lit "Final chunk"), group st)]
  else closed st.

Definition chunk_origins (text : str) (chunk_size : Z)
  : list (Chunk * list str) :=
  traced_finish (traced_loop chunk_size (re_split text)).

Definition erase (st : Traced) : Chunker :=
  mkChunker (map fst (closed st)) (buffer st) (ident st).

(** A sentence with its re-appended period. *)
Definition dotted (sentence : str) : str := sentence ++ lit ".".

(** The buffer of the first chunk: every sentence carries its period. *)
Definition first_buffer (g : list str) : str := concat (map dotted g).

(** The buffer of a later chunk: the sentence that opened it is stored as
    it is, the sentences accumulated after it carry their period. *)
Definition later_buffer (g : list str) : str :=
  match g with
  | [] => []
  | opening :: accumulated => opening ++ concat (map dotted accumulated)
  end.

Definition remove_periods (s : str) : str :=
  List.filter (fun c => negb (Ascii.eqb c ".")) s.

Definition blank (s : str) : bool := forallb is_space s.

(** ** The relevance scorer: [SimpleTextSearch.search_keywords] *)

(** An entry of [scored_chunks]. *)
Record Scored := mkScored {
  s_text : str;
  s_page_info : str;
  score : Z;
  s_chunk_id : Z
}.

Definition medical_terms : list str :=
  map lit ["hemorrhage"; "bleeding"; "tourniquet"; "airway"; "breathing";
           "circulation"; "shock"; "wound"]%string.

(** [set(query.lower().split())] *)
Definition query_words (query : str) : gset str :=
  list_to_set (split (lower query)).

(** The two inner loops on one chunk: keyword matches, then the boost. *)
Definition count_matches (chunk_text : str) (words : list str) : Z :=
  fold_left (fun score word => score + count chunk_text word)%Z words 0%Z.

Definition boost (query chunk_text : str) (score : Z) : Z :=
  fold_left
    (fun score term =>
       if contains term chunk_text && contains term (lower query)
       then (score + 5)%Z else score)
    medical_terms score.

Definition chunk_score (query : str) (chunk : Chunk) : Z :=
  let chunk_text := lower (text chunk) in
  boost query chunk_text
        (count_matches chunk_text (elements (query_words query))).

Definition scored (query : str) (chunk : Chunk) : Scored :=
  mkScored (text chunk) (page_info chunk) (chunk_score query chunk)
           (chunk_id chunk).

(** The outer loop: [scored_chunks] before it is sorted. *)
Definition scored_chunks (query : str) (chunks : list Chunk) : list Scored :=
  fold_left
    (fun acc chunk =>
       if (chunk_score query chunk >? 0)%Z then acc ++ [scored query chunk]
       else acc)
    chunks [].

(** [list.sort(key=score, reverse=True)]: Python's sort is stable, also
    when reversed; it is modelled by a stable insertion sort into
    descending order. *)
Fixpoint insert_desc (x : Scored) (l : list Scored) : list Scored :=
  match l with
  | [] => [x]
  | y :: l' =>
      if (score y >? score x)%Z then y :: insert_desc x l' else x :: y :: l'
  end.

Definition sort_desc (l : list Scored) : list Scored :=
  fold_right insert_desc [] l.

Definition search_keywords (chunks : list Chunk) (query : str)
           (max_results : Z) : list Scored :=
  slice_to (sort_desc (scored_chunks query chunks)) max_results.

Definition default_max_results : Z := 5.

(** *** The score as the specification words it *)

Definition sum_Z (l : list Z) : Z := fold_right Z.add 0%Z l.

(** The sum over the set of unique query words of the occurrence counts. *)
Definition word_hits (chunk_text : str) (words : gset str) : Z :=
  sum_Z (map (count chunk_text) (elements words)).

(** 5 for every medical term found in both the query and the chunk. *)
Definition term_bonus (query_lower chunk_text : str) : Z :=
  (5 * Z.of_nat
         (length (List.filter
                    (fun term => contains term chunk_text
                                 && contains term query_lower)
                    medical_terms)))%Z.

Definition spec_score (query : str) (chunk : Chunk) : Z :=
  (word_hits (lower (text chunk)) (query_words query)
   + term_bonus (lower query) (lower (text chunk)))%Z.

(** ** The context assembler: the [if not search_results: ... else: ...]
    block of [SimpleTCCCCLI.query] *)

(** A real line feed, as the triple-quoted literals of the source hold. *)
Definition LF : str := ["010"%char].

Definition display_page (page_info : str) : str :=
  replace page_info (lit "--- Page") (lit "Page").

Definition source_header (i : Z) (page_info : str) : str :=
  lit "[Source " ++ of_int (i + 1) ++ lit " - " ++ display_page page_info
      ++ lit "]\n".

Definition context_part (entry : Z * Scored) : str :=
  let (i, result) := entry in
  source_header i (s_page_info result) ++ firstn 600 (s_text result).

Definition assemble (search_results : list Scored) : str :=
  match search_results with
  | [] => []
  | _ :: _ =>
      join (lit "\n\n") (map context_part (enumerate (firstn 3 search_results)))
  end.

(** ** The generation request: [SimpleTCCCLLM.query]

    The prompt that is posted.  The model name, the system prompt and the
    options of the request are constants of the source and are left out. *)

Definition full_prompt (prompt context : str) : str :=
  if truthy context then
    lit "TCCC Handbook Context:" ++ LF ++ context ++ LF ++ LF
    ++ lit "Emergency Question: " ++ prompt ++ LF ++ LF
    ++ lit "Based on the handbook context above, provide immediate field guidance using bullet points for procedures:"
  else
    lit "Emergency Question: " ++ prompt ++ LF ++ LF
    ++ lit "Provide immediate TCCC field guidance:".

(** ** Comparison and partition of strings *)

(** [a == b] on strings. *)
Fixpoint str_eqb (a b : str) : bool :=
  match a, b with
  | [], [] => true
  | x :: a', y :: b' => Ascii.eqb x y && str_eqb a' b'
  | _, _ => false
  end.

(** [s.split(sep, 1)] for a separator of one character: the text before
    the first separator and the text behind it, or [s] alone. *)
Fixpoint split_once (sep : ascii) (s : str) : list str :=
  match s with
  | [] => [[]]
  | c :: s' =>
      if Ascii.eqb c sep then [[]; s']
      else match split_once sep s' with
           | before :: rest => (c :: before) :: rest
           | [] => [[c]]
           end
  end.

(** ** Console markup: [Console.print] of the library rich

    [self.console.print(s)] reads the string [s] as console markup
    ([rich.markup.render]) and raises [MarkupError] at a closing tag that
    closes nothing.  What follows is [rich.markup._parse] and the part of
    [render] that decides whether it raises, and with which message. *)

Module Markup.

(** [Tag]: the name and, behind the first [=], the parameters. *)
Record Tag := mkTag {
  name : str;
  parameters : option str
}.

(** [Tag.markup] *)
Definition markup (tag : Tag) : str :=
  match parameters tag with
  | None => lit "[" ++ name tag ++ lit "]"
  | Some p => lit "[" ++ name tag ++ lit "=" ++ p ++ lit "]"
  end.

(** [tag_text.partition("=")] *)
Definition tag_of (tag_text : str) : Tag :=
  match split_once "=" tag_text with
  | [text; p] => mkTag text (Some p)
  | _ => mkTag tag_text None
  end.

(** The class [[a-z#/@]] of [RE_TAGS], with which a tag starts. *)
Definition tag_first (c : ascii) : bool :=
  ((97 <=? code c) && (code c <=? 122))%N
  || Ascii.eqb c "#" || Ascii.eqb c "/" || Ascii.eqb c "@".

(** [[^[]*?]] of [RE_TAGS] and the bracket that closes the tag: the
    characters before the next ["]"], when no ["["] comes first. *)
Fixpoint tag_rest (s : str) : option str :=
  match s with
  | [] => None
  | c :: s' =>
      if Ascii.eqb c "]" then Some []
      else if Ascii.eqb c "[" then None
      else match tag_rest s' with
           | Some t => Some (c :: t)
           | None => None
           end
  end.

(** A match of [\[([a-z#/@][^[]*?)]] at the front of [s]: the tag text. *)
Definition tag_text_at (s : str) : option str :=
  match s with
  | b :: c :: s' =>
      if Ascii.eqb b "[" && tag_first c
      then match tag_rest s' with
           | Some t => Some (c :: t)
           | None => None
           end
      else None
  | _ => None
  end.

(** A position of [_parse] counts characters.  The literals of the source
    hold a character outside Latin-1 (the emoji of the messages) as its
    UTF-8 bytes; a position counts the byte that starts such a character
    and not the bytes 10xxxxxx that continue it.  Positions are those of
    the library for ASCII text, for the letters of Latin-1 and for the
    literals of the source; a code point 128..191 in a text is taken for
    such a byte. *)
Definition width (c : ascii) : Z :=
  if ((128 <=? code c) && (code c <=? 191))%N then 0 else 1.

(** [_parse]: the tags that [RE_TAGS.finditer] finds, left to right, each
    with its position; the text between them is left out.  [escapes] is
    the number of backslashes read just before the current character and
    [skip] the number of characters of the last match still to be passed
    over.  A tag behind an odd number of backslashes is escaped and is
    text; behind an even number its position is that of its bracket. *)
Fixpoint parse_from (escapes skip : nat) (position : Z) (s : str)
  : list (Z * Tag) :=
  match s with
  | [] => []
  | c :: s' =>
      let next := (position + width c)%Z in
      match skip with
      | S k => parse_from 0 k next s'
      | O =>
          if Ascii.eqb c "\" then parse_from (S escapes) 0 next s'
          else
            match tag_text_at s with
            | Some tag_text =>
                if Nat.even escapes
                then (position, tag_of tag_text)
                     :: parse_from 0 (S (length tag_text)) next s'
                else parse_from 0 (S (length tag_text)) next s'
            | None => parse_from 0 0 next s'
            end
      end
  end.

Definition parse (s : str) : list (Z * Tag) := parse_from 0 0 0 s.

Section Render.

(** [Style.normalize], and the message of the [MarkupError] raised when a
    tag [@...] is closed and [literal_eval] refuses its parameters, if it
    does. *)
Variable normalize : str -> str.
Variable handler_error : str -> option str.

(** [pop_style]: the open tags are searched from the last one opened, and
    the first with the name is taken out of the stack.  The head of
    [style_stack] is the tag opened last. *)
Fixpoint pop_style (style_name : str) (style_stack : list Tag)
  : option (Tag * list Tag) :=
  match style_stack with
  | [] => None
  | tag :: below =>
      if str_eqb (name tag) style_name then Some (tag, below)
      else match pop_style style_name below with
           | Some (found, rest) => Some (found, tag :: rest)
           | None => None
           end
  end.

(** What closing [open_tag] raises. *)
Definition closed_error (open_tag : Tag) : option str :=
  if startswith (lit "@") (name open_tag) then
    match parameters open_tag with
    | Some p => if truthy p then handler_error p else None
    | None => None
    end
  else None.

(** The loop of [render] over the tags: the message of the [MarkupError]
    it raises, if it raises.  Tags left open at the end are closed
    silently. *)
Fixpoint render_error (style_stack : list Tag) (tags : list (Z * Tag))
  : option str :=
  match tags with
  | [] => None
  | (position, tag) :: rest =>
      if startswith (lit "/") (name tag) then
        let style_name := strip (tl (name tag)) in
        let popped :=
          if truthy style_name
          then match pop_style (normalize style_name) style_stack with
               | Some found => inl found
               | None =>
                   inr (lit "closing tag '" ++ markup tag
                        ++ lit "' at position " ++ of_int position
                        ++ lit " doesn't match any open tag")
               end
          else match style_stack with
               | open_tag :: below => inl (open_tag, below)
               | [] =>
                   inr (lit "closing tag '[/]' at position "
                        ++ of_int position ++ lit " has nothing to close")
               end in
        match popped with
        | inr message => Some message
        | inl (open_tag, below) =>
            match closed_error open_tag with
            | Some message => Some message
            | None => render_error below rest
            end
        end
      else render_error (mkTag (normalize (name tag)) (parameters tag)
                         :: style_stack) rest
  end.

End Render.

End Markup.

(** What the program takes from rich besides the parser: [Style.normalize]
    and the evaluation of the parameters of a handler tag. *)
Record Rich := mkRich {
  normalize : str -> str;
  handler_error : str -> option str
}.

(** [Style.normalize] where it does no more than [style.strip().lower()],
    as on the names of the colours and attributes that the program
    uses. *)
Definition plain_normalize (style : str) : str := lower (strip style).

(** [rich.markup.render(s)] raises [MarkupError(message)]. *)
Definition markup_error (rich : Rich) (s : str) : option str :=
  Markup.render_error (normalize rich) (handler_error rich) []
                      (Markup.parse s).

(** ** What a run does *)

(** What the console receives.  The elapsed time is a wall-clock reading
    and is kept as an opaque line. *)
Inductive Output :=
| Print (markup : str)
| PrintPanel (body title border_style : str)
| PrintElapsed.

(** What [console.print] of an output raises.  A panel renders its title
    and its body as markup; the line of the elapsed time holds a number
    between two tags. *)
Definition print_error (rich : Rich) (output : Output) : option str :=
  match output with
  | Print s => markup_error rich s
  | PrintPanel body title _ =>
      match markup_error rich title with
      | Some message => Some message
      | None => markup_error rich body
      end
  | PrintElapsed => None
  end.

(** The steps of a run that are seen from outside: a print on the
    console, the search of the handbook with its result, and the prompt
    posted to the generation backend with the text that came back. *)
Inductive Effect :=
| Shows (output : Output)
| Searches (results : list Scored)
| Posts (prompt response : str).

(** A run up to its end or up to the exception that ends it. *)
Record Attempt := mkAttempt {
  performed : list Effect;
  raised : option str
}.

(** The steps are taken in order; the first print that raises ends the
    run, and nothing behind it is done. *)
Fixpoint perform (rich : Rich) (steps : list Effect) : Attempt :=
  match steps with
  | [] => mkAttempt [] None
  | step :: rest =>
      let error :=
        match step with
        | Shows output => print_error rich output
        | _ => None
        end in
      match error with
      | Some message => mkAttempt [] (Some message)
      | None =>
          let later := perform rich rest in
          mkAttempt (step :: performed later) (raised later)
      end
  end.

(** ** The query orchestrator: [SimpleTCCCCLI.query] *)

Definition source_line (entry : Z * Scored) : Output :=
  let (i, result) := entry in
  Print (lit "[dim]" ++ of_int (i + 1) ++ lit ". "
         ++ display_page (s_page_info result)
         ++ lit " (relevance score: " ++ of_int (score result)
         ++ lit ")[/dim]").

(** The first line printed, in the colour of the urgency. *)
Definition query_line (question : str) (urgent : bool) : Output :=
  let urgency_color := if urgent then lit "red" else lit "yellow" in
  Print (lit "[" ++ urgency_color ++ lit "]🚨 QUERY: " ++ question
         ++ lit "[/" ++ urgency_color ++ lit "]").

(** The panel that displays the response. *)
Definition guidance_panel (response : str) (urgent : bool) : Output :=
  if urgent
  then PrintPanel response (lit "🚨 URGENT MEDICAL GUIDANCE") (lit "red")
  else PrintPanel response (lit "📋 TCCC Guidance") (lit "green").

(** The line printed when the search finds nothing. *)
Definition nothing_found (search_results : list Scored) : list Effect :=
  match search_results with
  | [] => [Shows (Print (lit "[yellow]No relevant handbook content found[/yellow]"))]
  | _ :: _ => []
  end.

(** The lines that name the sources. *)
Definition sources_shown (search_results : list Scored) : list Effect :=
  match search_results with
  | [] => []
  | _ :: _ =>
      Shows (Print (lit "\n[dim]📖 Sources:[/dim]"))
      :: map (fun entry => Shows (source_line entry))
             (enumerate (firstn 3 search_results))
  end.

Section Orchestrator.

(** The library rich, the chunks of the loaded handbook
    ([self.search_engine.chunks]) and the generation backend: the text
    [SimpleTCCCLLM.query] returns for the prompt it posts (the generated
    text or the error text; it raises nothing). *)
Variable rich : Rich.
Variable handbook : list Chunk.
Variable backend : str -> str.

(** The steps of [query] in the order of the source, were no print to
    raise. *)
Definition query_steps (question : str) (urgent : bool) : list Effect :=
  let search_results :=
    search_keywords handbook question default_max_results in
  let context := assemble search_results in
  let prompt := full_prompt question context in
  let response := backend prompt in
  [Shows (query_line question urgent);
   Shows (Print (lit "🔍 Searching TCCC handbook..."));
   Searches search_results]
  ++ nothing_found search_results
  ++ [Shows (Print (lit "🧠 Generating medical guidance..."));
      Posts prompt response;
      Shows (Print (lit "\n" ++ repeat "="%char 60));
      Shows (guidance_panel response urgent)]
  ++ sources_shown search_results
  ++ [Shows PrintElapsed].

(** [query(question, urgent)]: what the call does, and the message of the
    exception it raises if a print raises; it returns the response
    otherwise. *)
Definition query (question : str) (urgent : bool) : Attempt :=
  perform rich (query_steps question urgent).

End Orchestrator.

(** ** Text extraction: the loop of
    [SimpleTCCCProcessor.extract_text_simple] *)

(** One iteration of [for page_num in range(page_count)]: what is added to
    [text].  The marker is written with the two characters backslash and n
    on both sides, as in the source. *)
Definition page_block (page_num : Z) (page_text : str) : str :=
  lit "\n--- Page " ++ of_int (page_num + 1) ++ lit " ---\n" ++ page_text.

(** [text] after the loop; [pages] is [page.get_text()] of every page. *)
Definition extract_pages (pages : list str) : str :=
  fold_left (fun text entry => text ++ page_block (fst entry) (snd entry))
            (enumerate pages) [].

(** ** The interactive shell: [SimpleTCCCCLI.interactive] *)

Definition quit_words : list str := map lit ["quit"; "exit"; "q"]%string.

Definition urgent_prefixes : list str :=
  map lit ["urgent:"; "emergency:"; "critical:"]%string.

(** What one line read by [input] makes the loop do. *)
Inductive Command :=
| Skip                                   (* [continue] on an empty line *)
| Quit                                   (* [break] *)
| Help                                   (* [show_help] *)
| Ask (question : str) (urgent : bool)   (* [self.query(query, urgent)] *)
| Fault.                                 (* [IndexError] of [...[1]] *)

(** The body of the loop up to the call of [query]; [line] is what [input]
    returned. *)
Definition interpret (line : str) : Command :=
  let query := strip line in
  if negb (truthy query) then Skip
  else if existsb (str_eqb (lower query)) quit_words then Quit
  else if str_eqb (lower query) (lit "help") then Help
  else
    let urgent :=
      existsb (fun p => startswith p (lower query)) urgent_prefixes in
    if urgent then
      match nth_error (split_once ":" query) 1 with
      | Some rest => Ask (strip rest) true
      | None => Fault
      end
    else Ask query false.

(** The double quote, for the literals that hold one. *)
Definition DQ : str := ["034"%char].

(** [help_text] of [show_help], line by line. *)
Definition help_text : str :=
  join LF
    [ [];
      lit "[bold]TCCC Emergency Reference Commands:[/bold]";
      [];
      lit "• Type your medical question directly";
      lit "• Add " ++ DQ ++ lit "urgent:" ++ DQ ++ lit ", " ++ DQ
        ++ lit "emergency:" ++ DQ ++ lit ", or " ++ DQ ++ lit "critical:"
        ++ DQ ++ lit " prefix for urgent queries";
      lit "• " ++ DQ ++ lit "quit" ++ DQ ++ lit " or " ++ DQ ++ lit "exit"
        ++ DQ ++ lit " - Exit system";
      lit "• " ++ DQ ++ lit "help" ++ DQ ++ lit " - Show this help";
      [];
      lit "[bold]Example Queries:[/bold]";
      lit "• massive hemorrhage control";
      lit "• airway management unconscious patient";
      lit "• urgent: tension pneumothorax treatment";
      lit "• emergency: sucking chest wound";
      lit "• tourniquet application steps";
      lit "• shock prevention battlefield";
      [];
      lit "[bold]System Info:[/bold]";
      lit "• Uses keyword search + LLM reasoning";
      lit "• Optimized for field emergency response";
      lit "• No internet required after setup";
      lit "        " ].

(** What a call of [input] gives: a line, or one of the two exceptions it
    raises, at an interrupt and at the end of the input. *)
Inductive Input :=
| Line (line : str)
| KeyboardInterrupt
| EOFError.

(** Where [interactive] stands on the inputs read so far: in the loop,
    returned after a [break], or left by an exception that no handler of
    the loop caught. *)
Inductive Status :=
| Running
| Returned
| Escaped (message : str).

(** What [interactive] has done on the inputs it has read, and where it
    stands. *)
Record Session := mkSession {
  happened : list Effect;
  status : Status
}.

Definition before (steps : list Effect) (s : Session) : Session :=
  mkSession (steps ++ happened s) (status s).

(** The inputs at which the loop is left by [break]. *)
Definition stops (input : Input) : bool :=
  match input with
  | Line line => match interpret line with Quit => true | _ => false end
  | KeyboardInterrupt => true
  | EOFError => false
  end.

(** The line of the handler [except Exception as e]. *)
Definition error_line (message : str) : Output :=
  Print (lit "[red]Error: " ++ message ++ lit "[/red]").

Section Shell.

Variable rich : Rich.
Variable handbook : list Chunk.
Variable backend : str -> str.

(** A print outside the [try], or in a handler: an exception it raises
    leaves [interactive]. *)
Definition unguarded (output : Output) (next : Session) : Session :=
  let shown := perform rich [Shows output] in
  match raised shown with
  | None => before (performed shown) next
  | Some message => mkSession (performed shown) (Escaped message)
  end.

(** [except Exception as e: self.console.print(f"[red]Error: {e}[/red]")],
    after which the loop goes on. *)
Definition handler (message : str) (continue : Session) : Session :=
  unguarded (error_line message) continue.

(** A part of the body of the [try]: what it did is done; when it raised,
    the handler takes over, and [next] follows otherwise. *)
Definition guarded (body : Attempt) (next continue : Session) : Session :=
  before (performed body)
         match raised body with
         | None => next
         | Some message => handler message continue
         end.

(** One turn of [while True: try: ... except KeyboardInterrupt: ...
    except Exception as e: ...] on what [input] gave; [continue] is the
    rest of the loop.  The prompt that [input] writes is not console
    output and is left out; an interrupt is taken at [input]. *)
Definition turn (input : Input) (continue : Session) : Session :=
  match input with
  | KeyboardInterrupt =>
      unguarded (Print (lit "\n👋 Stay safe!")) (mkSession [] Returned)
  | EOFError => handler (lit "EOF when reading a line") continue
  | Line line =>
      match interpret line with
      | Skip => continue
      | Quit =>
          guarded (perform rich [Shows (Print (lit "👋 Stay safe in the field!"))])
                  (mkSession [] Returned) continue
      | Help => guarded (perform rich [Shows (Print help_text)])
                        continue continue
      | Ask question urgent =>
          guarded (query rich handbook backend question urgent)
                  continue continue
      | Fault => handler (lit "list index out of range") continue
      end
  end.

Definition interactive_loop (inputs : list Input) : Session :=
  fold_right turn (mkSession [] Running) inputs.

Definition interactive (inputs : list Input) : Session :=
  unguarded (Print (lit "\n[bold]🎯 Interactive TCCC Mode - Type 'quit' to exit, 'help' for commands[/bold]"))
            (interactive_loop inputs).

End Shell.

(** ** Text extraction: [SimpleTCCCProcessor.extract_text_simple]

    What the function returns or raises.  [Pdf] is what the file system
    and PyMuPDF hold for the path. *)

Inductive Pdf :=
| NoFile                        (* [os.path.exists] is false *)
| NoLibrary                     (* [import fitz] raises [ImportError] *)
| Unreadable (message : str)    (* opening or reading the document raises *)
| Pages (pages : list str).     (* [page.get_text()] of every page *)

(** The result of a call that may raise: the exception is kept as its
    message. *)
Inductive Outcome (A : Type) :=
| Returns (a : A)
| Raises (message : str).

Arguments Returns {A} a.
Arguments Raises {A} message.

(** A print behind which the function returns [value]. *)
Definition print_then {A : Type} (rich : Rich) (output : Output)
           (value : Outcome A) : Outcome A :=
  match print_error rich output with
  | Some message => Raises message
  | None => value
  end.

(** [except Exception as e]: the message is printed, and the text is
    empty. *)
Definition extraction_failed (rich : Rich) (message : str) : Outcome str :=
  print_then rich
    (Print (lit "[red]Error processing PDF: " ++ message ++ lit "[/red]"))
    (Returns []).

(** The line that reports the extraction holds two numbers and no
    bracket; it is not part of the model. *)
Definition extract_text_simple (rich : Rich) (pdf_path : str) (pdf : Pdf)
  : Outcome str :=
  match pdf with
  | NoFile => Raises (lit "PDF not found: " ++ pdf_path)
  | NoLibrary =>
      print_then rich
        (Print (lit "[yellow]PyMuPDF not available. Please install: pip install PyMuPDF[/yellow]"))
        (Returns [])
  | Unreadable message =>
      match print_then rich
              (Print (lit "📖 Processing PDF with PyMuPDF: " ++ pdf_path))
              (Raises message) with
      | Returns text => Returns text
      | Raises e => extraction_failed rich e
      end
  | Pages pages =>
      match print_then rich
              (Print (lit "📖 Processing PDF with PyMuPDF: " ++ pdf_path))
              (Returns (extract_pages pages)) with
      | Returns text => Returns text
      | Raises e => extraction_failed rich e
      end
  end.

(** ** Start-up: [SimpleTCCCCLI.initialize] with [SimpleTextSearch.__init__]

    The chunks of the search engine, or the exception raised. *)
Definition initialize (rich : Rich) (pdf_path : str) (pdf : Pdf)
  : Outcome (list Chunk) :=
  print_then rich
    (Print (lit "[bold green]🏥 Simple TCCC Emergency Reference System[/bold green]"))
    match extract_text_simple rich pdf_path pdf with
    | Raises message => Raises message
    | Returns text =>
        if truthy text then
          let chunks := create_chunks text default_chunk_size in
          print_then rich
            (Print (lit "✓ Created " ++ of_int (Z.of_nat (length chunks))
                    ++ lit " text chunks for search"))
            (print_then rich (Print (lit "✅ System ready for queries!"))
                        (Returns chunks))
        else Raises (lit "Failed to extract text from PDF")
    end.

(** ** The entry point: [main]

    [args_query], [urgent] and [pdf_path] are the parsed arguments.  An
    exception of the start-up, of the query or of the interactive session
    is reported on one line and the process ends with status 1; it ends
    with status 0 otherwise. *)
Inductive Ended :=
| SystemError (line : str)
| Answered (run : Attempt)
| Interacted (session : Session).

Definition main (rich : Rich) (pdf_path : str) (pdf : Pdf)
           (backend : str -> str) (args_query : list str) (urgent : bool)
           (inputs : list Input) : Ended :=
  match initialize rich pdf_path pdf with
  | Raises message => SystemError (lit "System Error: " ++ message)
  | Returns handbook =>
      match args_query with
      | _ :: _ =>
          let run :=
            query rich handbook backend (join (lit " ") args_query) urgent in
          match raised run with
          | Some message => SystemError (lit "System Error: " ++ message)
          | None => Answered run
          end
      | [] =>
          let session := interactive rich handbook backend inputs in
          match status session with
          | Escaped message => SystemError (lit "System Error: " ++ message)
          | _ => Interacted session
          end
      end
  end.

(** ** The predicates of the properties

    What is stated below about the chunker and the scorer, and the
    invariants of the loops. *)

Definition plain (s : str) : Prop := Forall (fun c => is_terminator c = false) s.

(** In a list of this shape only the last string may be empty. *)
Fixpoint inner_nonempty (l : list str) : Prop :=
  match l with
  | [] => True
  | x :: l' => match l' with [] => True | _ :: _ => x <> [] /\ inner_nonempty l' end
  end.

(** The claim of C2 as it is written: the chunk texts, concatenated and
    with the periods taken out, are the sentences of the split. *)
Definition reconstructs (doc : str) (chunk_size : Z) : Prop :=
  remove_periods (concat (map text (create_chunks doc chunk_size)))
  = concat (re_split doc).

(** The claim of C5 as it is written: the last chunk of a non-empty
    chunking is labelled "Final chunk". *)
Definition last_label_is_final (doc : str) (chunk_size : Z) : Prop :=
  forall front c,
    create_chunks doc chunk_size = front ++ [c] ->
    page_info c = lit "Final chunk".

(** How a chunk relates to the sentences it was built from: the first
    chunk of a text, or a later one. *)
Definition buffer_at (first : bool) (g : list str) : str :=
  if first then first_buffer g else later_buffer g.

Definition built_from (first : bool) (cg : Chunk * list str) : Prop :=
  text (fst cg) = strip (buffer_at first (snd cg)) /\ snd cg <> [].

Definition rendered (l : list (Chunk * list str)) : Prop :=
  match l with
  | [] => True
  | cg :: later => built_from true cg /\ Forall (built_from false) later
  end.

Definition is_nil {A : Type} (l : list A) : bool :=
  match l with [] => true | _ :: _ => false end.

(** The length bound of a buffer of two or more sentences, and of the
    sentences in it. *)
Definition bounded (chunk_size : Z) (buf : str) (g : list str) : Prop :=
  2 <= length g ->
  (len buf <= chunk_size + 1)%Z /\ Forall (fun s => (len s <= chunk_size)%Z) g.

(** The structure the loop maintains. *)
Record shaped (st : Traced) : Prop := mkShaped {
  shaped_closed : rendered (closed st);
  shaped_buffer : buffer st = buffer_at (is_nil (closed st)) (group st);
  shaped_group : is_nil (closed st) = false -> group st <> []
}.


Definition nonempty_buffer (st : Traced) : Prop :=
  group st <> [] -> buffer st <> [].

Definition bounded_state (chunk_size : Z) (st : Traced) : Prop :=
  bounded chunk_size (buffer st) (group st)
  /\ Forall (fun cg => bounded chunk_size (text (fst cg)) (snd cg)) (closed st).

(** The bound of C3 as it is written, for a chunk and the sentences it was
    built from: unless the chunk is one sentence longer than the target
    size, its text is no longer than the target size plus its last
    sentence. *)
Definition within_target (chunk_size : Z) (cg : Chunk * list str) : Prop :=
  ~ (exists s, snd cg = [s] /\ (len s > chunk_size)%Z) ->
  (len (text (fst cg)) <= chunk_size + len (List.last (snd cg) []))%Z.

Definition spacefree (t : str) : Prop := Forall (fun c => is_space c = false) t.

(** The premise of C7 as it is written: no word of the query occurs in the
    lower-cased text of a chunk. *)
Definition no_word_occurs (query : str) (chunks : list Chunk) : Prop :=
  forall c w,
    In c chunks -> In w (split (lower query)) ->
    contains w (lower (text c)) = false.

(** No medical term of the query occurs in the lower-cased text of a
    chunk. *)
Definition no_term_shared (query : str) (chunks : list Chunk) : Prop :=
  forall c t,
    In c chunks -> In t medical_terms ->
    contains t (lower query) = true ->
    contains t (lower (text c)) = false.

Definition by_score_desc (a b : Scored) : Prop := (score a >= score b)%Z.

(** The entries with score [k], in the order of the list. *)
Definition with_score (k : Z) (l : list Scored) : list Scored :=
  List.filter (fun r => (score r =? k)%Z) l.

(** An entry cut to what the assembler reads of it. *)
Definition truncated (r : Scored) : Scored :=
  mkScored (firstn 600 (s_text r)) (s_page_info r) (score r) (s_chunk_id r).

(** A string whose only terminator is the period. *)
Definition period_only (s : str) : Prop :=
  forall c, In c s -> is_terminator c = true -> c = "."%char.

(** The labels a chunk can carry: the two fixed ones, or a stripped line
    that holds the page marker. *)
Definition page_label (label : str) : Prop :=
  label = lit "Final chunk" \/ label = lit "Unknown page"
  \/ (contains (lit "--- Page") label = true /\ strip label = label).

(** A chunk whose text is a stripped buffer with the property [P]. *)
Definition from_buffer (P : str -> Prop) (c : Chunk) : Prop :=
  exists b, P b /\ text c = strip b.

(** The identifiers count the chunks. *)
Definition numbered (st : Chunker) : Prop :=
  map chunk_id (chunks st) = map Z.of_nat (seq 0 (length (chunks st)))
  /\ next_id st = Z.of_nat (length (chunks st)).

(** The state of the chunker on a text that starts with the block [head]:
    no chunk yet and a buffer that starts with [head], or a first chunk
    with the label [label]. *)
Definition first_labelled (head label : str) (st : Chunker) : Prop :=
  (chunks st = [] /\ exists rest, current_chunk st = head ++ rest)
  \/ (exists c0 cs, chunks st = c0 :: cs /\ page_info c0 = label).

(** The lower-cased words of the command-line arguments. *)
Definition argument_words (args : list str) : list str :=
  flat_map (fun arg => split (lower arg)) args.

(** A query word occurs in the chunk, or a medical term occurs in the
    chunk and in the query. *)
Definition matches (query : str) (chunk : Chunk) : Prop :=
  (exists word,
      In word (split (lower query))
      /\ contains word (lower (text chunk)) = true)
  \/ (exists term,
         In term medical_terms
         /\ contains term (lower (text chunk)) = true
         /\ contains term (lower query) = true).

(** A text with every terminator written as a period. *)
Definition normalise_terminators (doc : str) : str :=
  map (fun c => if is_terminator c then "."%char else c) doc.

(** A name that opens a tag and that the closing tag names again: it
    starts as a tag does, is no closing tag itself, holds no bracket and
    no [=], and has no whitespace at its ends. *)
Definition style_tag (t : str) : bool :=
  match t with
  | [] => false
  | c :: _ =>
      Markup.tag_first c && negb (Ascii.eqb c "/")
      && forallb (fun x => negb (Ascii.eqb x "[" || Ascii.eqb x "]"
                                 || Ascii.eqb x "=")) t
      && str_eqb (strip t) t
  end.

(** What a turn of the interactive loop does with the rest of the loop:
    the rest follows some steps of the turn, or the loop is left and the
    rest is dropped. *)
Definition goes_on (f : Session -> Session) : Prop :=
  exists steps, forall continue, f continue = before steps continue.

Definition leaves (f : Session -> Session) : Prop :=
  exists s, status s <> Running /\ forall continue, f continue = s.

(** A step that does not raise: every step but a print does not, and a
    print when it renders. *)
Definition renders (rich : Rich) (step : Effect) : Prop :=
  match step with
  | Shows output => print_error rich output = None
  | _ => True
  end.

(** The text of a tag: the character that starts it and the characters up
    to its closing bracket. *)
Definition tag_text (text : str) : Prop :=
  exists c body,
    text = c :: body /\ Markup.tag_first c = true
    /\ Forall (fun x => x <> "["%char /\ x <> "]"%char) body.



(** * Facts about the string operations *)

Section StrFacts.

Lemma len_app (a b : str) : len (a ++ b) = (len a + len b)%Z.
Proof. unfold len. rewrite length_app. lia. Qed.

Lemma len_nonneg (s : str) : (0 <= len s)%Z.
Proof. unfold len. lia. Qed.

Lemma truthy_false (s : str) : truthy s = false <-> s = [].
Proof. destruct s; simpl; split; congruence. Qed.

Lemma truthy_true (s : str) : truthy s = true <-> s <> [].
Proof. destruct s; simpl; split; congruence. Qed.

Lemma truthy_app_r (a b : str) : truthy b = true -> truthy (a ++ b) = true.
Proof. destruct a; simpl; auto. Qed.

Lemma blank_app (a b : str) : blank (a ++ b) = blank a && blank b.
Proof. unfold blank. apply forallb_app. Qed.

Lemma blank_rev (s : str) : blank (rev s) = blank s.
Proof.
  induction s as [|c s IH]; simpl; auto.
  rewrite blank_app, IH. simpl. rewrite andb_true_r. apply andb_comm.
Qed.

Lemma lstrip_nil_blank (s : str) : lstrip s = [] <-> blank s = true.
Proof.
  induction s as [|c s IH]; simpl.
  - tauto.
  - destruct (is_space c); simpl; [exact IH | split; congruence].
Qed.

Lemma lstrip_blank (s : str) : blank (lstrip s) = blank s.
Proof.
  induction s as [|c s IH]; simpl; auto.
  destruct (is_space c) eqn:E; simpl; auto. now rewrite E.
Qed.

(** The stripped string is empty exactly when the string is blank. *)
Lemma strip_nil_blank (s : str) : strip s = [] <-> blank s = true.
Proof.
  unfold strip, rstrip. rewrite <- (lstrip_blank s).
  rewrite <- (blank_rev (lstrip s)), <- lstrip_nil_blank.
  split; intros H.
  - apply (f_equal (@rev ascii)) in H. now rewrite rev_involutive in H.
  - now rewrite H.
Qed.

Lemma truthy_strip (s : str) : truthy (strip s) = negb (blank s).
Proof.
  destruct (blank s) eqn:E; simpl.
  - apply truthy_false, strip_nil_blank, E.
  - apply truthy_true. rewrite strip_nil_blank. congruence.
Qed.

Lemma length_lstrip (s : str) : length (lstrip s) <= length s.
Proof.
  induction s as [|c s IH]; simpl; auto.
  destruct (is_space c); simpl; lia.
Qed.

Lemma length_strip (s : str) : length (strip s) <= length s.
Proof.
  unfold strip, rstrip. rewrite length_rev.
  etransitivity; [apply length_lstrip|]. rewrite length_rev.
  apply length_lstrip.
Qed.

Lemma len_strip (s : str) : (len (strip s) <= len s)%Z.
Proof. unfold len. pose proof (length_strip s). lia. Qed.

(** Stripping keeps every character that is not whitespace. *)
Lemma in_lstrip (c : ascii) (s : str) :
  In c s -> is_space c = false -> In c (lstrip s).
Proof.
  intros Hin Hc. induction s as [|d s IH]; simpl in *; auto.
  destruct (is_space d) eqn:E; auto.
  destruct Hin as [->|Hin]; [congruence | auto].
Qed.

Lemma in_strip (c : ascii) (s : str) :
  In c s -> is_space c = false -> In c (strip s).
Proof.
  intros Hin Hc. unfold strip, rstrip.
  apply in_rev. rewrite rev_involutive.
  apply in_lstrip; auto. apply -> in_rev. apply in_lstrip; auto.
Qed.

Lemma remove_periods_app (a b : str) :
  remove_periods (a ++ b) = remove_periods a ++ remove_periods b.
Proof. unfold remove_periods. apply List.filter_app. Qed.

Lemma remove_periods_plain (s : str) : plain s -> remove_periods s = s.
Proof.
  induction 1 as [|c s Hc _ IH]; simpl; auto.
  unfold is_terminator in Hc.
  destruct (Ascii.eqb c ".") eqn:E; simpl in *; [discriminate|].
  now rewrite IH.
Qed.

Lemma remove_periods_dotted (s : str) :
  plain s -> remove_periods (dotted s) = s.
Proof.
  intros H. unfold dotted. rewrite remove_periods_app, remove_periods_plain; auto.
  simpl. apply app_nil_r.
Qed.

Lemma blank_remove_periods (s : str) :
  blank s = true -> blank (remove_periods s) = true.
Proof.
  unfold blank, remove_periods. rewrite !forallb_forall.
  intros H c Hc. apply List.filter_In in Hc. apply H, Hc.
Qed.

(** No piece of [re_split] holds a terminator. *)
Lemma re_split_plain (s : str) : Forall plain (re_split s).
Proof.
  induction s as [|c s IH]; simpl.
  - repeat constructor.
  - destruct (re_split s) as [|p ps]; [repeat constructor|].
    inversion IH as [|? ? Hp Hps]; subst.
    destruct (is_terminator c) eqn:Ec.
    + destruct s as [|c' s']; [repeat constructor; auto|].
      destruct (is_terminator c'); repeat constructor; auto.
    + constructor; auto. constructor; auto.
Qed.

Lemma re_split_nonempty (s : str) : re_split s <> [].
Proof.
  induction s as [|c s IH]; simpl; [discriminate|].
  destruct (re_split s) as [|p ps]; [discriminate|].
  destruct (is_terminator c); [|discriminate].
  destruct s as [|c' s']; [discriminate|].
  destruct (is_terminator c'); discriminate.
Qed.

Lemma re_split_head (c : ascii) (s : str) :
  is_terminator c = false ->
  exists p ps, re_split (c :: s) = (c :: p) :: ps.
Proof.
  intros Hc. simpl. pose proof (re_split_nonempty s) as Hne.
  destruct (re_split s) as [|p ps]; [congruence|]. rewrite Hc. eauto.
Qed.

(** [re_split] returns a first piece, and after it only the last piece may
    be empty: between two runs of terminators there is a character. *)
Lemma re_split_shape (s : str) :
  exists h t, re_split s = h :: t /\ inner_nonempty t.
Proof.
  induction s as [|c s IH].
  - exists [], []. simpl. auto.
  - destruct IH as (h & t & E & Ht).
    destruct (is_terminator c) eqn:Ec.
    + destruct s as [|c' s'].
      * simpl. rewrite Ec. exists [], [[]]. simpl. auto.
      * destruct (is_terminator c') eqn:Ec'.
        -- exists h, t. split; auto.
           change (re_split (c :: c' :: s')) with
             (match re_split (c' :: s') with
              | [] => [[]]
              | p :: ps =>
                  if is_terminator c then
                    if is_terminator c' then p :: ps else [] :: p :: ps
                  else (c :: p) :: ps
              end).
           rewrite E, Ec, Ec'. reflexivity.
        -- destruct (re_split_head c' s' Ec') as (p & ps & E').
           exists [], (h :: t). split.
           ++ change (re_split (c :: c' :: s')) with
                (match re_split (c' :: s') with
                 | [] => [[]]
                 | p :: ps =>
                     if is_terminator c then
                       if is_terminator c' then p :: ps else [] :: p :: ps
                     else (c :: p) :: ps
                 end).
              rewrite E, Ec, Ec'. reflexivity.
           ++ rewrite E in E'. inversion E'; subst.
              simpl. destruct ps; [exact I|]. split; [discriminate | exact Ht].
    + exists (c :: h), t. split; auto.
      simpl. rewrite E, Ec. reflexivity.
Qed.

End StrFacts.

(** * The chunker *)

Section ChunkerFacts.

Variable chunk_size : Z.

Lemma chunk_loop_snoc (l : list str) (s : str) :
  chunk_loop chunk_size (l ++ [s])
  = chunk_step chunk_size (chunk_loop chunk_size l) s.
Proof. unfold chunk_loop. now rewrite fold_left_app. Qed.

(** After any iteration the buffer holds the sentence just read. *)
Lemma chunk_step_blank (st : Chunker) (s : str) :
  blank (current_chunk (chunk_step chunk_size st s)) = true -> blank s = true.
Proof.
  unfold chunk_step. destruct (overflows _ _ _); simpl; auto.
  rewrite !blank_app. intros H.
  apply andb_true_iff in H as [_ H]. now apply andb_true_iff in H as [H _].
Qed.

(** The chunks closed so far are stripped buffers, and the buffers, the
    running one included, hold the characters of the sentences read. *)
Lemma chunk_step_buffers (st : Chunker) (s : str) (bufs : list str) :
  plain s ->
  map text (chunks st) = map strip bufs ->
  exists bufs',
    map text (chunks (chunk_step chunk_size st s)) = map strip bufs'
    /\ remove_periods
         (concat bufs' ++ current_chunk (chunk_step chunk_size st s))
       = remove_periods (concat bufs ++ current_chunk st) ++ s.
Proof.
  intros Hs Hb. unfold chunk_step. destruct (overflows _ _ _); simpl.
  - exists (bufs ++ [current_chunk st]). split.
    + rewrite !map_app, Hb. reflexivity.
    + rewrite concat_app. simpl. rewrite app_nil_r.
      now rewrite remove_periods_app, (remove_periods_plain s).
  - exists bufs. split; auto.
    rewrite !app_assoc, <- app_assoc.
    rewrite remove_periods_app. change (s ++ ["."%char]) with (dotted s).
    now rewrite remove_periods_dotted.
Qed.

Lemma chunk_loop_buffers (l : list str) (st : Chunker) (bufs : list str) :
  Forall plain l ->
  map text (chunks st) = map strip bufs ->
  exists bufs',
    map text (chunks (fold_left (chunk_step chunk_size) l st))
    = map strip bufs'
    /\ remove_periods
         (concat bufs'
          ++ current_chunk (fold_left (chunk_step chunk_size) l st))
       = remove_periods (concat bufs ++ current_chunk st) ++ concat l.
Proof.
  intros Hl. revert st bufs.
  induction Hl as [|s l Hs _ IH]; intros st bufs Hb; simpl.
  - exists bufs. now rewrite app_nil_r.
  - destruct (chunk_step_buffers st s bufs Hs Hb) as (b1 & Hb1 & E1).
    destruct (IH _ _ Hb1) as (b2 & Hb2 & E2).
    exists b2. split; auto. rewrite E2, E1. now rewrite <- app_assoc.
Qed.

Lemma contains_in (c : ascii) (p s : str) :
  contains (c :: p) s = true -> In c s.
Proof.
  induction s as [|d s IH]; simpl.
  - discriminate.
  - intros H. apply orb_true_iff in H as [H|H].
    + apply andb_true_iff in H as [H _].
      apply Ascii.eqb_eq in H. now left.
    + right. auto.
Qed.

(** The page scan never produces the label of the final chunk. *)
Lemma find_page_info_not_final (b : str) :
  find_page_info b <> lit "Final chunk".
Proof.
  unfold find_page_info.
  destruct (List.find _ _) as [line|] eqn:E; [|discriminate].
  apply List.find_some in E as [_ E].
  destruct (truthy (strip line)); [|discriminate].
  apply contains_in in E. intros H.
  assert (Hin : In "-"%char (strip line)) by (apply in_strip; auto).
  rewrite H in Hin. simpl in Hin.
  repeat (destruct Hin as [Hin|Hin]; [discriminate|]). exact Hin.
Qed.

Lemma chunk_step_labels (st : Chunker) (s : str) :
  Forall (fun c => page_info c <> lit "Final chunk") (chunks st) ->
  Forall (fun c => page_info c <> lit "Final chunk")
         (chunks (chunk_step chunk_size st s)).
Proof.
  intros H. unfold chunk_step. destruct (overflows _ _ _); simpl; auto.
  apply Forall_app. split; auto.
  constructor; [|constructor]. simpl. apply find_page_info_not_final.
Qed.

Lemma chunk_loop_labels (l : list str) (st : Chunker) :
  Forall (fun c => page_info c <> lit "Final chunk") (chunks st) ->
  Forall (fun c => page_info c <> lit "Final chunk")
         (chunks (fold_left (chunk_step chunk_size) l st)).
Proof.
  revert st. induction l as [|s l IH]; intros st H; simpl; auto.
  apply IH, chunk_step_labels, H.
Qed.

End ChunkerFacts.

(** C4, counterexample: the chunks of the empty text are not the empty
    sequence. *)
Lemma empty_text_chunked : ~ (create_chunks [] default_chunk_size = []).
Proof. vm_compute. discriminate. Qed.

(** C4, amended: for the empty text [re.split] returns one empty sentence,
    the loop turns it into the buffer ".", which is not blank, and the
    final guard lets that buffer through: exactly one chunk is returned,
    with the text ".", the identifier 0 and the label of the final chunk,
    whatever the target size. *)
Theorem create_chunks_empty_text (chunk_size : Z) :
  create_chunks [] chunk_size = [mkChunk (lit ".") 0 (lit "Final chunk")].
Proof.
  unfold create_chunks, chunk_loop. simpl. unfold chunk_step, overflows.
  simpl. rewrite andb_false_r. reflexivity.
Qed.

(** C2, counterexample: a text that starts with a space.  Its one sentence
    keeps the space, the chunk text has lost it to [strip]. *)
Lemma reconstructs_fails :
  ~ reconstructs (lit " Stop the bleeding") default_chunk_size.
Proof. unfold reconstructs. vm_compute. discriminate. Qed.

(** C2, amended: the chunk texts are the stripped buffers of a cut of the
    text; the buffers, concatenated and with the periods taken out, give
    back the characters of all sentences in order, nothing left out and
    nothing repeated, up to a blank leftover buffer that yields no chunk.
    What is lost is the whitespace [strip] removes at the two ends of a
    buffer. *)
Theorem chunks_cover_sentences (doc : str) (chunk_size : Z) :
  exists (bufs : list str) (dropped : str),
    map text (create_chunks doc chunk_size) = map strip bufs
    /\ blank dropped = true
    /\ remove_periods (concat bufs) ++ dropped = concat (re_split doc).
Proof.
  destruct (chunk_loop_buffers chunk_size (re_split doc) chunker_init []
              (re_split_plain doc) eq_refl) as (bufs & Hb & E).
  simpl in E. fold (chunk_loop chunk_size (re_split doc)) in Hb, E.
  unfold create_chunks, chunk_finish. rewrite truthy_strip.
  set (st := chunk_loop chunk_size (re_split doc)) in *.
  destruct (blank (current_chunk st)) eqn:Hbl; simpl.
  - exists bufs, (remove_periods (current_chunk st)).
    split; [exact Hb|]. split; [now apply blank_remove_periods|].
    now rewrite <- remove_periods_app.
  - exists (bufs ++ [current_chunk st]), [].
    split; [now rewrite !map_app, Hb|]. split; [reflexivity|].
    rewrite concat_app. simpl. now rewrite !app_nil_r.
Qed.

(** C5, counterexample: a sentence of 1000 characters and its period.  The
    empty sentence behind the period closes the buffer inside the loop and
    leaves a blank leftover: the only chunk is labelled by the page scan. *)
Lemma last_label_is_final_fails :
  ~ last_label_is_final (repeat "a"%char 1000 ++ lit ".") default_chunk_size.
Proof.
  intros H.
  specialize (H [] (mkChunk (repeat "a"%char 1000 ++ lit ".") 0
                            (lit "Unknown page"))).
  assert (E : create_chunks (repeat "a"%char 1000 ++ lit ".")
                default_chunk_size
              = [] ++ [mkChunk (repeat "a"%char 1000 ++ lit ".") 0
                               (lit "Unknown page")])
    by (vm_compute; reflexivity).
  specialize (H E). discriminate H.
Qed.

(** C5, amended: a leftover buffer that is not blank becomes the last
    chunk, with label "Final chunk" whatever its text holds; a blank
    leftover buffer yields no chunk; the chunks closed inside the loop
    never carry that label; and the leftover buffer is not blank whenever
    the last sentence of the text is not blank. *)
Theorem final_chunk_label (doc : str) (chunk_size : Z) :
  let st := chunk_loop chunk_size (re_split doc) in
  (blank (current_chunk st) = false ->
   create_chunks doc chunk_size
   = chunks st ++ [mkChunk (strip (current_chunk st)) (next_id st)
                           (lit "Final chunk")])
  /\ (blank (current_chunk st) = true ->
      create_chunks doc chunk_size = chunks st)
  /\ Forall (fun c => page_info c <> lit "Final chunk") (chunks st)
  /\ (blank (List.last (re_split doc) []) = false ->
      blank (current_chunk st) = false).
Proof.
  intros st. unfold create_chunks, chunk_finish. fold st.
  rewrite truthy_strip. repeat split.
  - now intros ->.
  - now intros ->.
  - apply chunk_loop_labels. constructor.
  - intros Hlast. subst st.
    rewrite (app_removelast_last [] (re_split_nonempty doc)).
    rewrite chunk_loop_snoc.
    destruct (blank (current_chunk _)) eqn:E; auto.
    apply chunk_step_blank in E. congruence.
Qed.

(** A final chunk whose text starts with a page marker: the marker is in
    the text, the label is "Final chunk". *)
Example final_chunk_with_marker :
  create_chunks (lit "--- Page 2 ---\nStop the bleeding") default_chunk_size
  = [mkChunk (lit "--- Page 2 ---\nStop the bleeding.") 0 (lit "Final chunk")]
  /\ find_page_info (lit "--- Page 2 ---\nStop the bleeding.")
     = lit "--- Page 2 ---".
Proof. split; vm_compute; reflexivity. Qed.

(** A text of two sentences cut in two: the leftover buffer is not blank
    and becomes the final chunk. *)
Lemma final_chunk_label_witness :
  blank (current_chunk (chunk_loop 20 (re_split (lit "Stop the bleeding. Apply a tourniquet"))))
  = false
  /\ create_chunks (lit "Stop the bleeding. Apply a tourniquet") 20
     = [mkChunk (lit "Stop the bleeding.") 0 (lit "Unknown page");
        mkChunk (lit "Apply a tourniquet") 1 (lit "Final chunk")].
Proof.
  assert (H : blank (current_chunk (chunk_loop 20
                (re_split (lit "Stop the bleeding. Apply a tourniquet"))))
              = false) by (vm_compute; reflexivity).
  split; [exact H|].
  rewrite (proj1 (final_chunk_label
                    (lit "Stop the bleeding. Apply a tourniquet") 20) H).
  vm_compute. reflexivity.
Defined.

(** * The origin of the chunks *)

Section OriginFacts.

Variable chunk_size : Z.

Lemma erase_step (st : Traced) (s : str) :
  erase (traced_step chunk_size st s) = chunk_step chunk_size (erase st) s.
Proof.
  unfold traced_step, chunk_step, erase. simpl.
  destruct (overflows _ _ _); simpl; auto.
  now rewrite map_app.
Qed.

Lemma erase_loop (l : list str) (st : Traced) :
  erase (fold_left (traced_step chunk_size) l st)
  = fold_left (chunk_step chunk_size) l (erase st).
Proof.
  revert st. induction l as [|s l IH]; intros st; simpl; auto.
  now rewrite IH, erase_step.
Qed.

(** Forgetting the recorded sentences gives the chunker of the source. *)
Lemma origins_erase (doc : str) :
  map fst (chunk_origins doc chunk_size) = create_chunks doc chunk_size.
Proof.
  unfold chunk_origins, create_chunks, traced_finish, chunk_finish,
    traced_loop, chunk_loop.
  change chunker_init with (erase traced_init). rewrite <- erase_loop.
  set (st := fold_left _ _ _). simpl.
  destruct (truthy (strip (buffer st))); auto.
  now rewrite map_app.
Qed.

Lemma buffer_at_nil (f : bool) : buffer_at f [] = [].
Proof. now destruct f. Qed.

Lemma first_buffer_snoc (g : list str) (s : str) :
  first_buffer (g ++ [s]) = first_buffer g ++ dotted s.
Proof.
  unfold first_buffer. rewrite map_app, concat_app. simpl.
  now rewrite app_nil_r.
Qed.

Lemma later_buffer_snoc (g : list str) (s : str) :
  g <> [] -> later_buffer (g ++ [s]) = later_buffer g ++ dotted s.
Proof.
  destruct g as [|o acc]; [congruence|]. intros _. simpl.
  fold (first_buffer (acc ++ [s])). rewrite first_buffer_snoc.
  unfold first_buffer. now rewrite app_assoc.
Qed.

(** Every sentence of a group is a segment of the buffer. *)
Lemma in_first_buffer (x : str) (g : list str) :
  In x g -> exists a b, first_buffer g = a ++ x ++ b.
Proof.
  induction g as [|y g IH]; simpl; [tauto|].
  intros [->|H].
  - exists [], (lit "." ++ first_buffer g). unfold first_buffer. simpl.
    unfold dotted. now rewrite <- app_assoc.
  - destruct (IH H) as (a & b & E). exists (dotted y ++ a), b.
    unfold first_buffer in *. simpl. rewrite E. now rewrite <- app_assoc.
Qed.

Lemma in_buffer_at (f : bool) (x : str) (g : list str) :
  In x g -> exists a b, buffer_at f g = a ++ x ++ b.
Proof.
  destruct f; simpl; [apply in_first_buffer|].
  destruct g as [|o acc]; simpl; [tauto|].
  intros [->|H].
  - now exists [], (concat (map dotted acc)).
  - destruct (in_first_buffer x acc H) as (a & b & E).
    exists (o ++ a), b. unfold first_buffer in E. rewrite E.
    now rewrite <- app_assoc.
Qed.

Lemma len_in_buffer_at (f : bool) (x : str) (g : list str) :
  In x g -> (len x <= len (buffer_at f g))%Z.
Proof.
  intros H. destruct (in_buffer_at f x g H) as (a & b & ->).
  rewrite !len_app. pose proof (len_nonneg a). pose proof (len_nonneg b). lia.
Qed.


Lemma rendered_snoc (l : list (Chunk * list str)) (cg : Chunk * list str) :
  rendered l -> built_from (is_nil l) cg -> rendered (l ++ [cg]).
Proof.
  destruct l as [|cg0 later]; simpl.
  - intros _ H. split; [exact H | constructor].
  - intros [H0 Hl] H. split; auto. apply Forall_app. split; auto.
Qed.

Lemma shaped_init : shaped traced_init.
Proof. split; simpl; auto; discriminate. Qed.

Lemma shaped_truthy (st : Traced) :
  shaped st -> truthy (buffer st) = true -> group st <> [].
Proof.
  intros [_ Hb _] Ht Hg. rewrite Hb, Hg, buffer_at_nil in Ht. discriminate.
Qed.

Lemma is_nil_snoc {A : Type} (l : list A) (x : A) : is_nil (l ++ [x]) = false.
Proof. now destruct l. Qed.

Lemma shaped_step (st : Traced) (s : str) :
  shaped st -> shaped (traced_step chunk_size st s).
Proof.
  intros Hst. pose proof Hst as [Hc Hb Hg]. unfold traced_step.
  destruct (overflows _ _ _) eqn:Ho; split; simpl.
  - apply rendered_snoc; auto. split; simpl; [now rewrite <- Hb|].
    apply shaped_truthy; auto.
    unfold overflows in Ho. now apply andb_true_iff in Ho as [_ Ho].
  - rewrite is_nil_snoc. simpl. now rewrite app_nil_r.
  - discriminate.
  - exact Hc.
  - rewrite Hb. change (s ++ lit ".") with (dotted s).
    destruct (is_nil (closed st)) eqn:E; simpl.
    + now rewrite first_buffer_snoc.
    + rewrite later_buffer_snoc; auto.
  - intros _. now destruct (group st).
Qed.

Lemma shaped_loop (l : list str) (st : Traced) :
  shaped st -> shaped (fold_left (traced_step chunk_size) l st).
Proof.
  revert st. induction l as [|s l IH]; intros st H; simpl; auto.
  apply IH, shaped_step, H.
Qed.

Lemma rendered_finish (st : Traced) : shaped st -> rendered (traced_finish st).
Proof.
  intros Hst. pose proof Hst as [Hc Hb Hg]. unfold traced_finish.
  destruct (truthy (strip (buffer st))) eqn:E; auto.
  apply rendered_snoc; auto. split; simpl; [now rewrite <- Hb|].
  apply shaped_truthy; auto.
  destruct (buffer st); [discriminate E | reflexivity].
Qed.




(** *** Length bounds *)

Lemma bounded_strip (buf : str) (g : list str) :
  bounded chunk_size buf g -> bounded chunk_size (strip buf) g.
Proof.
  intros H Hg. destruct (H Hg) as [Hl Hf]. split; auto.
  pose proof (len_strip buf). lia.
Qed.

Lemma bounded_step (st : Traced) (s : str) :
  shaped st -> nonempty_buffer st -> bounded_state chunk_size st ->
  bounded_state chunk_size (traced_step chunk_size st s).
Proof.
  intros Hst Hne [Hb Hc]. unfold traced_step.
  destruct (overflows _ _ _) eqn:Ho; split; simpl; auto.
  - intros Hlen. simpl in Hlen. lia.
  - apply Forall_app. split; auto. constructor; [|constructor].
    simpl. now apply bounded_strip.
  - intros Hlen. rewrite length_app in Hlen. simpl in Hlen.
    assert (Hg : group st <> []) by (destruct (group st); simpl in *; [lia | discriminate]).
    specialize (Hne Hg). apply truthy_true in Hne.
    unfold overflows in Ho. rewrite Hne, andb_true_r in Ho.
    rewrite Z.gtb_ltb in Ho. apply Z.ltb_ge in Ho. rewrite len_app in Ho.
    pose proof (len_nonneg s). pose proof (len_nonneg (buffer st)).
    split.
    + rewrite !len_app. change (len ["."%char]) with 1%Z. lia.
    + apply Forall_app. split; [|constructor; [lia | constructor]].
      apply List.Forall_forall. intros x Hx.
      destruct Hst as [_ Hbuf _].
      pose proof (len_in_buffer_at (is_nil (closed st)) x (group st) Hx).
      rewrite <- Hbuf in H1. lia.
Qed.

Lemma nonempty_step (st : Traced) (s : str) :
  s <> [] \/ buffer st = [] -> nonempty_buffer (traced_step chunk_size st s).
Proof.
  intros Hs _. unfold traced_step, overflows.
  destruct Hs as [Hs | ->].
  - destruct (_ && _); simpl; auto.
    intros H. apply app_eq_nil in H as [_ H]. now apply app_eq_nil in H as [H _].
  - simpl. rewrite andb_false_r. simpl. now destruct s.
Qed.

Lemma bounded_loop (t : list str) (st : Traced) :
  inner_nonempty t ->
  shaped st -> nonempty_buffer st -> bounded_state chunk_size st ->
  bounded_state chunk_size (fold_left (traced_step chunk_size) t st).
Proof.
  revert st. induction t as [|x t IH]; intros st Ht Hst Hne Hb; simpl; auto.
  pose proof (bounded_step st x Hst Hne Hb) as Hb'.
  destruct t as [|y t]; [exact Hb'|].
  destruct Ht as [Hx Ht].
  apply IH; auto using shaped_step, nonempty_step.
Qed.

Lemma bounded_origins (doc : str) :
  Forall (fun cg => bounded chunk_size (text (fst cg)) (snd cg))
         (chunk_origins doc chunk_size).
Proof.
  unfold chunk_origins, traced_loop, traced_finish.
  destruct (re_split_shape doc) as (h & t & -> & Ht). simpl.
  assert (Hb : bounded_state chunk_size
                 (fold_left (traced_step chunk_size) t
                            (traced_step chunk_size traced_init h))).
  { apply bounded_loop; auto.
    - apply shaped_step, shaped_init.
    - apply nonempty_step. now right.
    - apply bounded_step.
      + apply shaped_init.
      + intros H. now elim H.
      + split; [|constructor]. intros H. simpl in H. lia. }
  destruct Hb as [Hb Hc].
  destruct (truthy _); auto.
  apply Forall_app. split; auto. constructor; [|constructor].
  simpl. now apply bounded_strip.
Qed.

End OriginFacts.

(** C3, counterexample: 999 characters and a period.  The empty sentence
    behind the period still fits, so it is accumulated and brings its own
    period: the chunk has 1001 characters and its last sentence is empty. *)
Lemma within_target_fails :
  ~ Forall (within_target default_chunk_size)
           (chunk_origins (repeat "a"%char 999 ++ lit ".") default_chunk_size).
Proof.
  assert (E : chunk_origins (repeat "a"%char 999 ++ lit ".") default_chunk_size
              = [(mkChunk (repeat "a"%char 999 ++ lit "..") 0
                          (lit "Final chunk"),
                  [repeat "a"%char 999; []])])
    by (vm_compute; reflexivity).
  rewrite E. clear E. intros H. apply Forall_inv in H.
  unfold within_target, default_chunk_size in H.
  cbn [fst snd text List.last] in H.
  assert (Hlen : (len (repeat "a"%char 999 ++ lit "..") = 1001)%Z).
  { unfold len. rewrite length_app, repeat_length. reflexivity. }
  rewrite Hlen in H. change (len []) with 0%Z in H.
  assert (Hno : ~ (exists s : str,
                      [repeat "a"%char 999; []] = [s] /\ (len s > 1000)%Z)).
  { intros (s & Hs & _). discriminate Hs. }
  specialize (H Hno). lia.
Qed.

(** C3, amended: a chunk built from two or more sentences has at most
    [chunk_size + 1] characters, the one above the target being the
    re-appended period; a sentence longer than the target size is alone in
    its chunk; and the text of a chunk built from one sentence is that
    sentence whole, stripped, with or without its period. *)
Theorem chunk_length_bound (doc : str) (chunk_size : Z) :
  map fst (chunk_origins doc chunk_size) = create_chunks doc chunk_size
  /\ Forall
       (fun cg =>
          (2 <= length (snd cg) -> (len (text (fst cg)) <= chunk_size + 1)%Z)
          /\ (forall s, In s (snd cg) -> (len s > chunk_size)%Z -> snd cg = [s])
          /\ (forall s, snd cg = [s] ->
                        text (fst cg) = strip s
                        \/ text (fst cg) = strip (dotted s)))
       (chunk_origins doc chunk_size).
Proof.
  split; [apply origins_erase|].
  pose proof (bounded_origins chunk_size doc) as Hb.
  assert (Hr : Forall (fun cg => exists f, built_from f cg)
                      (chunk_origins doc chunk_size)).
  { pose proof (rendered_finish _
                  (shaped_loop chunk_size (re_split doc) traced_init
                               shaped_init)) as Hr.
    fold (traced_loop chunk_size (re_split doc)) in Hr.
    fold (chunk_origins doc chunk_size) in Hr.
    destruct (chunk_origins doc chunk_size) as [|cg0 later]; [constructor|].
    destruct Hr as [H0 Hl]. constructor; [now exists true|].
    eapply List.Forall_impl; [|exact Hl]. intros cg H. now exists false. }
  rewrite List.Forall_forall in *. intros [c g] Hin.
  specialize (Hb _ Hin). destruct (Hr _ Hin) as (f & Ht & Hg).
  simpl in *. repeat split.
  - intros H2. now destruct (Hb H2).
  - intros s Hs Hlong.
    destruct g as [|x [|y g]]; [contradiction| |].
    + destruct Hs as [->|[]]. reflexivity.
    + destruct Hb as [_ Hall]; [simpl; lia|].
      rewrite List.Forall_forall in Hall. specialize (Hall s Hs). lia.
  - intros s ->. rewrite Ht. destruct f; simpl.
    + right. unfold first_buffer. simpl. now rewrite app_nil_r.
    + left. now rewrite app_nil_r.
Qed.

(** A text cut into three chunks: the first sentence of the second and of
    the third chunk has no period behind it. *)
Example chunk_origins_example :
  chunk_origins (lit "Stop the bleeding. Apply a tourniquet. Now go. Run.") 20
  = [(mkChunk (lit "Stop the bleeding.") 0 (lit "Unknown page"),
      [lit "Stop the bleeding"]);
     (mkChunk (lit "Apply a tourniquet") 1 (lit "Unknown page"),
      [lit " Apply a tourniquet"]);
     (mkChunk (lit "Now go Run..") 2 (lit "Final chunk"),
      [lit " Now go"; lit " Run"; []])].
Proof. vm_compute. reflexivity. Qed.


(** * The relevance scorer *)

Section ScorerFacts.

Lemma fold_left_add {A : Type} (f : A -> Z) (l : list A) (a : Z) :
  fold_left (fun acc x => acc + f x)%Z l a = (a + sum_Z (map f l))%Z.
Proof.
  revert a. induction l as [|x l IH]; intros a; simpl.
  - lia.
  - rewrite IH. lia.
Qed.

Lemma fold_left_bonus {A : Type} (p : A -> bool) (l : list A) (a : Z) :
  fold_left (fun acc x => if p x then (acc + 5)%Z else acc) l a
  = (a + 5 * Z.of_nat (length (List.filter p l)))%Z.
Proof.
  revert a. induction l as [|x l IH]; intros a; simpl.
  - lia.
  - rewrite IH. destruct (p x); simpl length; lia.
Qed.

(** The two loops compute the sum and the bonus of the specification. *)
Lemma chunk_score_eq (query : str) (chunk : Chunk) :
  chunk_score query chunk = spec_score query chunk.
Proof.
  unfold chunk_score, spec_score, boost, count_matches, word_hits, term_bonus.
  rewrite fold_left_bonus, fold_left_add. lia.
Qed.

(** *** Substrings and whitespace *)

Lemma startswith_before_space (t a b : str) (c : ascii) :
  spacefree t -> is_space c = true ->
  startswith t (a ++ c :: b) = startswith t a.
Proof.
  intros Ht Hc. revert a.
  induction Ht as [|h t Hh _ IH]; intros a; [reflexivity|].
  destruct a as [|x a]; simpl.
  - destruct (Ascii.eqb h c) eqn:E; auto.
    apply Ascii.eqb_eq in E. congruence.
  - now rewrite IH.
Qed.

(** A pattern without whitespace occurs in a string on one side of a
    whitespace character or on the other. *)
Lemma contains_around_space (t a b : str) (c : ascii) :
  spacefree t -> t <> [] -> is_space c = true ->
  contains t (a ++ c :: b) = contains t a || contains t b.
Proof.
  intros Ht Hne Hc. induction a as [|x a IH].
  - simpl app.
    change (contains t (c :: b)) with (startswith t (c :: b) || contains t b).
    pose proof (startswith_before_space t [] b c Ht Hc) as E.
    simpl app in E. rewrite E.
    destruct t; [congruence | reflexivity].
  - change (contains t ((x :: a) ++ c :: b))
      with (startswith t ((x :: a) ++ c :: b) || contains t (a ++ c :: b)).
    change (contains t (x :: a)) with (startswith t (x :: a) || contains t a).
    rewrite IH, (startswith_before_space t (x :: a) b c Ht Hc).
    now rewrite orb_assoc.
Qed.

Lemma existsb_flush (t word : str) :
  t <> [] -> existsb (contains t) (flush word) = contains t (rev word).
Proof.
  intros Hne. destruct word as [|c w]; simpl.
  - destruct t; [congruence | reflexivity].
  - now rewrite orb_false_r.
Qed.

Lemma contains_split_from (t word s : str) :
  spacefree t -> t <> [] ->
  existsb (contains t) (split_from word s) = contains t (rev word ++ s).
Proof.
  intros Ht Hne. revert word.
  induction s as [|c s IH]; intros word; simpl.
  - now rewrite app_nil_r, existsb_flush.
  - destruct (is_space c) eqn:Hc.
    + rewrite existsb_app, IH, existsb_flush by assumption.
      now rewrite contains_around_space.
    + rewrite IH. simpl. now rewrite <- app_assoc.
Qed.

(** A pattern without whitespace occurs in a string exactly when it occurs
    in one of its words. *)
Lemma contains_split (t s : str) :
  spacefree t -> t <> [] ->
  contains t s = existsb (contains t) (split s).
Proof. intros Ht Hne. unfold split. now rewrite contains_split_from. Qed.

Lemma medical_terms_spacefree :
  Forall (fun t => spacefree t /\ t <> []) medical_terms.
Proof.
  unfold medical_terms. simpl.
  repeat (constructor; [split; [repeat constructor | discriminate]|]).
  constructor.
Qed.

(** Whether a medical term occurs in the query is decided by the set of
    its words. *)
Lemma term_in_query_by_words (q1 q2 t : str) :
  query_words q1 = query_words q2 -> In t medical_terms ->
  contains t (lower q1) = contains t (lower q2).
Proof.
  intros Hw Ht.
  pose proof medical_terms_spacefree as Hm.
  rewrite List.Forall_forall in Hm. destruct (Hm t Ht) as [Hs Hne].
  rewrite !(contains_split t) by assumption.
  apply eq_true_iff_eq. rewrite !existsb_exists.
  assert (Hin : forall w, In w (split (lower q1)) <-> In w (split (lower q2))).
  { intros w. rewrite <- !list_elem_of_In.
    rewrite <- !(elem_of_list_to_set (C := gset str)).
    unfold query_words in Hw. now rewrite Hw. }
  split; intros (w & Hw1 & Hw2); exists w; split; auto; now apply Hin.
Qed.

(** The score is a function of the set of query words. *)
Lemma chunk_score_by_words (q1 q2 : str) (chunk : Chunk) :
  query_words q1 = query_words q2 ->
  chunk_score q1 chunk = chunk_score q2 chunk.
Proof.
  intros Hw. rewrite !chunk_score_eq. unfold spec_score, term_bonus.
  rewrite Hw. do 4 f_equal.
  apply List.filter_ext_in. intros t Ht.
  now rewrite (term_in_query_by_words q1 q2 t Hw Ht).
Qed.

(** *** Patterns that do not occur *)

Lemma count_from_absent (sub s : str) (skip : nat) :
  contains sub s = false -> count_from sub skip s = 0%Z.
Proof.
  revert skip. induction s as [|c s IH]; intros skip H; [reflexivity|].
  change (contains sub (c :: s))
    with (startswith sub (c :: s) || contains sub s) in H.
  apply orb_false_iff in H as [H1 H2].
  cbn [count_from]. rewrite H1. destruct skip; auto.
Qed.

Lemma count_absent (s sub : str) : contains sub s = false -> count s sub = 0%Z.
Proof.
  destruct sub as [|c sub]; intros H.
  - destruct s; discriminate H.
  - apply count_from_absent, H.
Qed.

(** The two equations of the non-overlapping count: an occurrence at the
    front counts once and the scan resumes behind it; without one the scan
    moves on by one character. *)
Lemma startswith_self (p rest : str) : startswith p (p ++ rest) = true.
Proof.
  induction p as [|a p IH]; simpl; auto.
  now rewrite Ascii.eqb_refl, IH.
Qed.

Lemma count_from_skip (sub p rest : str) :
  count_from sub (length p) (p ++ rest) = count_from sub 0 rest.
Proof. induction p as [|a p IH]; simpl; auto. Qed.

Lemma count_match (sub rest : str) :
  sub <> [] -> count (sub ++ rest) sub = (1 + count rest sub)%Z.
Proof.
  destruct sub as [|a sub]; [congruence|]. intros _.
  pose proof (startswith_self (a :: sub) rest) as E.
  unfold count. cbn [app count_from] in *. rewrite E.
  cbn [length]. rewrite Nat.sub_succ, Nat.sub_0_r.
  now rewrite count_from_skip.
Qed.

Lemma count_no_match (c : ascii) (s sub : str) :
  startswith sub (c :: s) = false -> count (c :: s) sub = count s sub.
Proof.
  destruct sub as [|a sub]; [discriminate|]. intros H.
  unfold count. cbn [count_from]. now rewrite H.
Qed.

Lemma count_from_nonneg (sub s : str) (skip : nat) :
  (0 <= count_from sub skip s)%Z.
Proof.
  revert skip. induction s as [|c s IH]; intros skip; simpl; [lia|].
  destruct skip; auto.
  destruct (startswith sub (c :: s)); auto.
  specialize (IH (length sub - 1)). lia.
Qed.

Lemma sum_Z_zero (l : list Z) : Forall (fun z => z = 0%Z) l -> sum_Z l = 0%Z.
Proof. induction 1; simpl; lia. Qed.

(** *** The entries of the result *)

Lemma scored_chunks_filter (query : str) (chunks : list Chunk) :
  scored_chunks query chunks
  = map (scored query)
        (List.filter (fun c => (chunk_score query c >? 0)%Z) chunks).
Proof.
  unfold scored_chunks.
  enough (H : forall acc,
             fold_left
               (fun acc chunk =>
                  if (chunk_score query chunk >? 0)%Z
                  then acc ++ [scored query chunk] else acc) chunks acc
             = acc ++ map (scored query)
                          (List.filter
                             (fun c => (chunk_score query c >? 0)%Z) chunks))
    by apply (H []).
  induction chunks as [|c chunks IH]; intros acc; simpl.
  - now rewrite app_nil_r.
  - rewrite IH. destruct (chunk_score query c >? 0)%Z; simpl; auto.
    now rewrite <- app_assoc.
Qed.

Lemma insert_desc_in (x y : Scored) (l : list Scored) :
  In y (insert_desc x l) <-> y = x \/ In y l.
Proof.
  induction l as [|z l IH]; simpl.
  - intuition.
  - destruct (score z >? score x)%Z; simpl; rewrite ?IH; intuition.
Qed.

Lemma sort_desc_in (y : Scored) (l : list Scored) :
  In y (sort_desc l) <-> In y l.
Proof.
  induction l as [|x l IH]; simpl; [tauto|].
  rewrite insert_desc_in, IH. intuition.
Qed.

Lemma slice_to_firstn {A : Type} (l : list A) (n : Z) :
  exists m, slice_to l n = firstn m l.
Proof. unfold slice_to. destruct (n <? 0)%Z; eauto. Qed.

Lemma in_firstn {A : Type} (x : A) (m : nat) (l : list A) :
  In x (firstn m l) -> In x l.
Proof.
  intros H. rewrite <- (firstn_skipn m l). apply in_or_app. now left.
Qed.

(** Every entry returned is the scored copy of a chunk whose score is
    positive. *)
Lemma search_keywords_in (chunks : list Chunk) (query : str) (max_results : Z)
      (r : Scored) :
  In r (search_keywords chunks query max_results) ->
  exists c, In c chunks /\ r = scored query c
            /\ (chunk_score query c > 0)%Z.
Proof.
  unfold search_keywords.
  destruct (slice_to_firstn (sort_desc (scored_chunks query chunks))
                            max_results) as [m ->].
  intros H. apply in_firstn in H. apply (proj1 (sort_desc_in _ _)) in H.
  rewrite scored_chunks_filter in H.
  apply in_map_iff in H as (c & <- & Hc).
  apply List.filter_In in Hc as [Hc Hpos].
  exists c. repeat split; auto. now apply Z.gtb_gt.
Qed.

End ScorerFacts.

Lemma medical_terms_distinct : List.NoDup medical_terms /\ length medical_terms = 8.
Proof.
  split; [|reflexivity]. unfold medical_terms. simpl.
  repeat (constructor; [simpl; intuition discriminate|]). constructor.
Qed.

(** [str.count] does not count overlapping occurrences. *)
Example count_non_overlapping :
  count (lit "aaaa") (lit "aa") = 2%Z
  /\ count (lit "bleeding, rebleeding") (lit "bleeding") = 2%Z.
Proof. split; reflexivity. Qed.

(** C1: the score the two loops compute for a chunk is the sum, over the
    set of lower-cased query words, of their occurrence counts in the
    lower-cased chunk text, plus 5 for every medical term found in both the
    lower-cased query and the lower-cased chunk text; every entry that
    [search_keywords] returns carries that score for its chunk; and the
    score depends on the query through the set of its words only, so that
    repeating a word changes nothing. *)
Theorem search_score_spec (chunks : list Chunk) (query : str)
        (max_results : Z) :
  (forall chunk,
      chunk_score query chunk
      = (word_hits (lower (text chunk)) (query_words query)
         + term_bonus (lower query) (lower (text chunk)))%Z)
  /\ (forall r,
         In r (search_keywords chunks query max_results) ->
         exists chunk,
           In chunk chunks /\ r = scored query chunk
           /\ score r = spec_score query chunk)
  /\ (forall query' chunk,
         query_words query' = query_words query ->
         chunk_score query' chunk = chunk_score query chunk).
Proof.
  repeat split.
  - intros chunk. apply chunk_score_eq.
  - intros r Hr.
    destruct (search_keywords_in _ _ _ _ Hr) as (c & Hc & -> & _).
    exists c. repeat split; auto. simpl. apply chunk_score_eq.
  - intros query' chunk Hw. now apply chunk_score_by_words.
Qed.

(** A query that repeats its word scores as the query with the word
    once. *)
Lemma search_score_spec_witness :
  query_words (lit "wound wound") = query_words (lit "wound")
  /\ chunk_score (lit "wound wound")
                 (mkChunk (lit "Pack the wound.") 0 (lit "Final chunk"))
     = chunk_score (lit "wound")
                   (mkChunk (lit "Pack the wound.") 0 (lit "Final chunk")).
Proof.
  assert (H : query_words (lit "wound wound") = query_words (lit "wound"))
    by (vm_compute; reflexivity).
  split; [exact H|].
  apply (proj2 (proj2 (search_score_spec [] (lit "wound") 5))). exact H.
Defined.

(** C7, counterexample: the word "wounds" does not occur in the chunk, yet
    the medical term "wound" occurs in the query and in the chunk, and the
    boost brings the chunk into the result with score 5. *)
Lemma no_word_occurs_fails :
  ~ (no_word_occurs (lit "wounds")
                    [mkChunk (lit "Pack the wound.") 0 (lit "Final chunk")] ->
     search_keywords [mkChunk (lit "Pack the wound.") 0 (lit "Final chunk")]
                     (lit "wounds") default_max_results = []).
Proof.
  intros H.
  assert (Hw : no_word_occurs
                 (lit "wounds")
                 [mkChunk (lit "Pack the wound.") 0 (lit "Final chunk")]).
  { intros c w [<-|[]] Hw. vm_compute in Hw.
    destruct Hw as [<-|[]]. vm_compute. reflexivity. }
  specialize (H Hw). vm_compute in H. discriminate H.
Qed.

(** The entry that query brings back. *)
Example wounds_result :
  search_keywords [mkChunk (lit "Pack the wound.") 0 (lit "Final chunk")]
                  (lit "wounds") default_max_results
  = [mkScored (lit "Pack the wound.") (lit "Final chunk") 5 0].
Proof. vm_compute. reflexivity. Qed.

Lemma filter_none {A : Type} (p : A -> bool) (l : list A) :
  (forall x, In x l -> p x = false) -> List.filter p l = [].
Proof.
  induction l as [|x l IH]; intros H; simpl; auto.
  rewrite (H x) by now left. apply IH. intros y Hy. apply H. now right.
Qed.

Lemma slice_to_nil {A : Type} (n : Z) : slice_to (@nil A) n = [].
Proof. unfold slice_to. destruct (n <? 0)%Z; apply firstn_nil. Qed.

(** C7, amended: when no word of the query occurs in a chunk and no
    medical term occurs in both the query and a chunk, the result is
    empty; and in any case every entry of the result has a positive score,
    the one computed for its chunk. *)
Theorem zero_score_excluded (chunks : list Chunk) (query : str)
        (max_results : Z) :
  (no_word_occurs query chunks -> no_term_shared query chunks ->
   search_keywords chunks query max_results = [])
  /\ (forall r,
         In r (search_keywords chunks query max_results) ->
         (score r > 0)%Z
         /\ exists c, In c chunks /\ r = scored query c
                      /\ score r = chunk_score query c).
Proof.
  split.
  - intros Hw Ht. unfold search_keywords.
    rewrite scored_chunks_filter, filter_none; [apply slice_to_nil|].
    intros c Hc. rewrite chunk_score_eq. unfold spec_score.
    assert (E1 : word_hits (lower (text c)) (query_words query) = 0%Z).
    { apply sum_Z_zero, Forall_map, List.Forall_forall. intros w Hin.
      apply count_absent, Hw; auto.
      apply list_elem_of_In in Hin.
      apply elem_of_elements, elem_of_list_to_set in Hin.
      now apply list_elem_of_In. }
    assert (E2 : term_bonus (lower query) (lower (text c)) = 0%Z).
    { unfold term_bonus. rewrite filter_none; [reflexivity|].
      intros t Hin. destruct (contains t (lower query)) eqn:E.
      - now rewrite (Ht c t Hc Hin E).
      - apply andb_false_r. }
    rewrite E1, E2. reflexivity.
  - intros r Hr.
    destruct (search_keywords_in _ _ _ _ Hr) as (c & Hc & -> & Hpos).
    split; [exact Hpos|]. now exists c.
Qed.

(** A query that shares no word and no medical term with the chunk. *)
Lemma zero_score_excluded_witness :
  search_keywords [mkChunk (lit "Keep the airway open.") 0 (lit "Final chunk")]
                  (lit "tourniquet") default_max_results = [].
Proof.
  apply (proj1 (zero_score_excluded
                  [mkChunk (lit "Keep the airway open.") 0 (lit "Final chunk")]
                  (lit "tourniquet") default_max_results)).
  - intros c w [<-|[]] Hw. vm_compute in Hw.
    destruct Hw as [<-|[]]. vm_compute. reflexivity.
  - intros c t [<-|[]] Hin E. vm_compute in Hin.
    repeat (destruct Hin as [<-|Hin]; [vm_compute in E |- *; congruence|]).
    destruct Hin.
Defined.

(** * The order of the result *)

Section SortFacts.

Lemma Forall_insert_desc (P : Scored -> Prop) (x : Scored) (l : list Scored) :
  P x -> Forall P l -> Forall P (insert_desc x l).
Proof.
  intros Hx Hl. apply List.Forall_forall. intros y Hy.
  apply insert_desc_in in Hy as [->|Hy]; auto.
  rewrite List.Forall_forall in Hl. auto.
Qed.

Lemma insert_desc_sorted (x : Scored) (l : list Scored) :
  StronglySorted by_score_desc l ->
  StronglySorted by_score_desc (insert_desc x l).
Proof.
  induction 1 as [|y l Hl IH Hy]; simpl.
  - repeat constructor.
  - destruct (score y >? score x)%Z eqn:E.
    + constructor; auto. apply Forall_insert_desc; auto.
      apply Z.gtb_gt in E. unfold by_score_desc. lia.
    + rewrite Z.gtb_ltb in E. apply Z.ltb_ge in E.
      constructor; [now constructor|].
      constructor; [unfold by_score_desc; lia|].
      eapply List.Forall_impl; [|exact Hy].
      unfold by_score_desc. intros z Hz. lia.
Qed.

Lemma sort_desc_sorted (l : list Scored) :
  StronglySorted by_score_desc (sort_desc l).
Proof.
  induction l as [|x l IH]; simpl; [constructor|].
  now apply insert_desc_sorted.
Qed.

(** Insertion puts the new entry ahead of the entries of equal score. *)
Lemma with_score_insert (k : Z) (x : Scored) (l : list Scored) :
  with_score k (insert_desc x l) = with_score k (x :: l).
Proof.
  induction l as [|y l IH]; [reflexivity|].
  cbn [insert_desc]. destruct (score y >? score x)%Z eqn:E; [|reflexivity].
  apply Z.gtb_gt in E. unfold with_score in *. cbn [List.filter] in *.
  rewrite IH.
  destruct (score x =? k)%Z eqn:Ex, (score y =? k)%Z eqn:Ey; auto.
  apply Z.eqb_eq in Ex, Ey. lia.
Qed.

(** The sort is stable: entries of equal score keep their order. *)
Lemma sort_desc_stable (k : Z) (l : list Scored) :
  with_score k (sort_desc l) = with_score k l.
Proof.
  induction l as [|x l IH]; [reflexivity|].
  cbn [sort_desc fold_right]. fold (sort_desc l).
  rewrite with_score_insert. unfold with_score in *. cbn [List.filter].
  now rewrite IH.
Qed.

Lemma firstn_sorted (m : nat) (l : list Scored) :
  StronglySorted by_score_desc l -> StronglySorted by_score_desc (firstn m l).
Proof.
  intros H. revert m. induction H as [|x l Hl IH Hx]; intros m.
  - rewrite firstn_nil. constructor.
  - destruct m; simpl; constructor; auto.
    apply List.Forall_forall. intros y Hy. apply in_firstn in Hy.
    rewrite List.Forall_forall in Hx. auto.
Qed.

Lemma with_score_firstn (k : Z) (m : nat) (l : list Scored) :
  exists rest, with_score k l = with_score k (firstn m l) ++ rest.
Proof.
  exists (with_score k (skipn m l)). unfold with_score.
  now rewrite <- List.filter_app, firstn_skipn.
Qed.

(** Before the sort the entries are in the order of their chunks. *)
Lemma with_score_scored (k : Z) (query : str) (chunks : list Chunk) :
  (0 < k)%Z ->
  with_score k (scored_chunks query chunks)
  = map (scored query)
        (List.filter (fun c => (chunk_score query c =? k)%Z) chunks).
Proof.
  intros Hk. rewrite scored_chunks_filter. unfold with_score.
  induction chunks as [|c chunks IH]; [reflexivity|].
  cbn [List.filter].
  destruct (chunk_score query c =? k)%Z eqn:Ek,
           (chunk_score query c >? 0)%Z eqn:Ep;
    cbn [map List.filter]; cbn [score scored]; rewrite ?Ek, ?IH; auto.
  apply Z.eqb_eq in Ek. rewrite Z.gtb_ltb in Ep. apply Z.ltb_ge in Ep. lia.
Qed.

Lemma with_score_nonpositive (k : Z) (query : str) (chunks : list Chunk) :
  (k <= 0)%Z -> with_score k (scored_chunks query chunks) = [].
Proof.
  intros Hk. rewrite scored_chunks_filter. unfold with_score.
  apply filter_none. intros r Hr.
  apply in_map_iff in Hr as (c & <- & Hc).
  apply List.filter_In in Hc as [_ Hc]. apply Z.gtb_gt in Hc.
  cbn [score scored]. apply Z.eqb_neq. lia.
Qed.

Lemma length_insert_desc (x : Scored) (l : list Scored) :
  length (insert_desc x l) = S (length l).
Proof.
  induction l as [|y l IH]; [reflexivity|].
  cbn [insert_desc]. destruct (score y >? score x)%Z; simpl; auto.
Qed.

Lemma length_sort_desc (l : list Scored) : length (sort_desc l) = length l.
Proof.
  induction l as [|x l IH]; [reflexivity|].
  cbn [sort_desc fold_right]. fold (sort_desc l).
  now rewrite length_insert_desc, IH.
Qed.

Lemma length_slice_to {A : Type} (l : list A) (n : Z) :
  (0 <= n)%Z -> (Z.of_nat (length (slice_to l n)) <= n)%Z.
Proof.
  intros Hn. unfold slice_to.
  destruct (n <? 0)%Z eqn:E; [apply Z.ltb_lt in E; lia|].
  rewrite length_firstn. lia.
Qed.

End SortFacts.

(** C6: the result is in descending order of score; its entries of any one
    score are the first of the chunks with that score, in the order of the
    chunks; and it has at most [max_results] entries, for every number of
    entries [max_results], the default of 5 among them. *)
Theorem search_results_order (chunks : list Chunk) (query : str)
        (max_results : Z) :
  let result := search_keywords chunks query max_results in
  StronglySorted by_score_desc result
  /\ (forall k, exists rest,
         map (scored query)
             (List.filter (fun c => (chunk_score query c =? k)%Z) chunks)
         = with_score k result ++ rest)
  /\ ((0 <= max_results)%Z -> (Z.of_nat (length result) <= max_results)%Z).
Proof.
  intros result. subst result. unfold search_keywords.
  repeat split.
  - destruct (slice_to_firstn (sort_desc (scored_chunks query chunks))
                              max_results) as [m ->].
    apply firstn_sorted, sort_desc_sorted.
  - intros k.
    destruct (slice_to_firstn (sort_desc (scored_chunks query chunks))
                              max_results) as [m ->].
    destruct (with_score_firstn k m (sort_desc (scored_chunks query chunks)))
      as [rest E].
    rewrite sort_desc_stable in E.
    destruct (Z.ltb_spec 0 k) as [Hk|Hk].
    + exists rest. now rewrite <- E, with_score_scored.
    + rewrite with_score_nonpositive in E by assumption.
      symmetry in E. apply app_eq_nil in E as [-> _]. eauto.
  - apply length_slice_to.
Qed.

(** Three chunks, two of them with equal score, and room for two
    results. *)
Lemma search_results_order_witness :
  let chunks := [mkChunk (lit "Pack the wound.") 0 (lit "Unknown page");
                 mkChunk (lit "Wound, shock, wound.") 1 (lit "Unknown page");
                 mkChunk (lit "Dress the wound.") 2 (lit "Final chunk")] in
  map s_chunk_id (search_keywords chunks (lit "wound") 2) = [1; 0]%Z
  /\ (Z.of_nat (length (search_keywords chunks (lit "wound") 2)) <= 2)%Z.
Proof.
  intros chunks. split; [vm_compute; reflexivity|].
  apply (proj2 (proj2 (search_results_order chunks (lit "wound") 2))).
  lia.
Defined.

(** * The context assembler *)

Section AssemblerFacts.

Lemma assemble_join (search_results : list Scored) :
  assemble search_results
  = join (lit "\n\n")
         (map context_part (enumerate (firstn 3 search_results))).
Proof. now destruct search_results. Qed.

Lemma context_part_truncated (i : Z) (r : Scored) :
  context_part (i, truncated r) = context_part (i, r).
Proof.
  unfold context_part, truncated. cbn [s_page_info s_text].
  now rewrite firstn_firstn, Nat.min_id.
Qed.

Lemma parts_truncated (i : Z) (l : list Scored) :
  map context_part (enumerate_from i (map truncated l))
  = map context_part (enumerate_from i l).
Proof.
  revert i. induction l as [|r l IH]; intros i; [reflexivity|].
  cbn [map enumerate_from]. now rewrite context_part_truncated, IH.
Qed.

Lemma length_enumerate_from {A : Type} (i : Z) (l : list A) :
  length (enumerate_from i l) = length l.
Proof. revert i. induction l; intros i; simpl; auto. Qed.

Lemma parts_shape (i : Z) (l : list Scored) :
  List.Forall2
    (fun part r =>
       exists j, part = source_header j (s_page_info r)
                        ++ firstn 600 (s_text r))
    (map context_part (enumerate_from i l)) l.
Proof.
  revert i. induction l as [|r l IH]; intros i; simpl; constructor; auto.
  now exists i.
Qed.

End AssemblerFacts.

(** C8: an empty result gives the empty context; the context is a function
    of the first three entries and of the first 600 characters of their
    texts; and it is the join of at most three parts, one per entry, each a
    source header followed by at most 600 characters, the first ones, of
    the text of the entry. *)
Theorem context_cap (search_results : list Scored) :
  assemble [] = []
  /\ assemble search_results
     = assemble (map truncated (firstn 3 search_results))
  /\ exists parts,
       assemble search_results = join (lit "\n\n") parts
       /\ length parts <= 3
       /\ List.Forall2
            (fun part r =>
               exists i, part = source_header i (s_page_info r)
                                ++ firstn 600 (s_text r))
            parts (firstn 3 search_results)
       /\ Forall (fun r => length (firstn 600 (s_text r)) <= 600)
                 search_results.
Proof.
  split; [reflexivity|]. split.
  - rewrite !assemble_join, <- firstn_map, firstn_firstn, Nat.min_id.
    rewrite firstn_map. unfold enumerate. now rewrite parts_truncated.
  - exists (map context_part (enumerate (firstn 3 search_results))).
    repeat split.
    + apply assemble_join.
    + rewrite length_map. unfold enumerate.
      rewrite length_enumerate_from, length_firstn. lia.
    + apply parts_shape.
    + apply List.Forall_forall. intros r _. rewrite length_firstn. lia.
Qed.

(** The context of two entries. *)
Example assemble_example :
  assemble [mkScored (lit "Apply a tourniquet.") (lit "--- Page 4 ---") 7 0;
            mkScored (lit "Pack the wound.") (lit "Final chunk") 6 1]
  = lit "[Source 1 - Page 4 ---]\nApply a tourniquet.\n\n[Source 2 - Final chunk]\nPack the wound.".
Proof. vm_compute. reflexivity. Qed.

(** * More on the string operations *)

Section StripFacts.

Lemma lstrip_fixed (c : ascii) (s : str) :
  is_space c = false -> lstrip (c :: s) = c :: s.
Proof. intros H. simpl. now rewrite H. Qed.

(** What is left of [lstrip] is empty or starts with a character that is
    not whitespace. *)
Lemma lstrip_head (s : str) :
  lstrip s = [] \/ exists c t, lstrip s = c :: t /\ is_space c = false.
Proof.
  induction s as [|c s IH]; simpl; [now left|].
  destruct (is_space c) eqn:E; [exact IH|]. right. eauto.
Qed.

Lemma lstrip_idempotent (s : str) : lstrip (lstrip s) = lstrip s.
Proof.
  destruct (lstrip_head s) as [->|(c & t & -> & Hc)]; [reflexivity|].
  now apply lstrip_fixed.
Qed.

Lemma lstrip_app (a b : str) :
  lstrip (a ++ b) = if blank a then lstrip b else lstrip a ++ b.
Proof.
  induction a as [|c a IH]; simpl; [reflexivity|].
  destruct (is_space c); simpl; auto.
Qed.

Lemma rstrip_blank (s : str) : blank s = true -> rstrip s = [].
Proof.
  intros H. unfold rstrip.
  assert (E : lstrip (rev s) = []) by (apply lstrip_nil_blank; now rewrite blank_rev).
  now rewrite E.
Qed.

(** [rstrip] works on what follows a character that is not whitespace. *)
Lemma rstrip_app (a b : str) (c : ascii) :
  is_space c = false -> rstrip (a ++ c :: b) = a ++ c :: rstrip b.
Proof.
  intros Hc. unfold rstrip.
  rewrite rev_app_distr. simpl rev. rewrite <- app_assoc. simpl app.
  rewrite lstrip_app. rewrite blank_rev.
  destruct (blank b) eqn:Hb.
  - assert (E : lstrip (rev b) = [])
      by (apply lstrip_nil_blank; now rewrite blank_rev).
    rewrite E, (lstrip_fixed c _ Hc). simpl. now rewrite rev_involutive.
  - rewrite rev_app_distr. simpl rev. rewrite rev_involutive.
    now rewrite <- app_assoc.
Qed.

Lemma rstrip_cons (c : ascii) (s : str) :
  is_space c = false -> rstrip (c :: s) = c :: rstrip s.
Proof. intros H. apply (rstrip_app [] s c H). Qed.

Lemma rstrip_idempotent (s : str) : rstrip (rstrip s) = rstrip s.
Proof.
  unfold rstrip. rewrite rev_involutive. now rewrite lstrip_idempotent.
Qed.

(** A stripped string is not changed by [strip]. *)
Lemma strip_idempotent (s : str) : strip (strip s) = strip s.
Proof.
  unfold strip at 2 3.
  destruct (lstrip_head s) as [->|(c & t & -> & Hc)]; [reflexivity|].
  rewrite (rstrip_cons c t Hc). unfold strip.
  rewrite (lstrip_fixed c _ Hc), (rstrip_cons c _ Hc).
  now rewrite rstrip_idempotent.
Qed.

(** [strip] on a string between two characters that are not whitespace. *)
Lemma strip_framed (a b : ascii) (s : str) :
  is_space a = false -> is_space b = false ->
  strip (a :: s ++ [b]) = a :: s ++ [b].
Proof.
  intros Ha Hb. unfold strip. rewrite (lstrip_fixed a _ Ha).
  change (a :: s ++ [b]) with ((a :: s) ++ b :: []).
  rewrite (rstrip_app (a :: s) [] b Hb). reflexivity.
Qed.

Lemma in_lstrip_inv (c : ascii) (s : str) : In c (lstrip s) -> In c s.
Proof.
  induction s as [|d s IH]; simpl; auto.
  destruct (is_space d); simpl; auto.
Qed.

(** [strip] adds no character. *)
Lemma in_strip_inv (c : ascii) (s : str) : In c (strip s) -> In c s.
Proof.
  unfold strip, rstrip. intros H.
  apply in_rev in H. apply in_lstrip_inv in H.
  apply in_rev in H. now apply in_lstrip_inv in H.
Qed.

Lemma blank_lower (s : str) : blank (lower s) = blank s.
Proof.
  unfold blank, lower. induction s as [|c s IH]; simpl; auto.
  rewrite IH. f_equal.
  destruct c as [[] [] [] [] [] [] [] []]; reflexivity.
Qed.

Lemma is_space_lower_char (c : ascii) : is_space (lower_char c) = is_space c.
Proof. destruct c as [[] [] [] [] [] [] [] []]; reflexivity. Qed.

Lemma lower_char_idempotent (c : ascii) :
  lower_char (lower_char c) = lower_char c.
Proof. destruct c as [[] [] [] [] [] [] [] []]; reflexivity. Qed.

(** Lower-casing produces a colon, a question mark or an exclamation mark
    only from itself. *)
Lemma lower_char_punct (c p : ascii) :
  In p [":"; "?"; "!"]%char -> lower_char c = p -> c = p.
Proof.
  intros Hp H. simpl in Hp.
  destruct Hp as [<-|[<-|[<-|[]]]];
    destruct c as [[] [] [] [] [] [] [] []]; vm_compute in H;
    solve [reflexivity | discriminate H].
Qed.

Lemma str_eqb_eq (a b : str) : str_eqb a b = true <-> a = b.
Proof.
  revert b. induction a as [|x a IH]; intros [|y b]; simpl;
    try (split; [discriminate | congruence]); [tauto|].
  rewrite andb_true_iff, Ascii.eqb_eq, IH. split.
  - intros [-> ->]. reflexivity.
  - intros H. injection H. auto.
Qed.

(** *** Substrings *)

Lemma startswith_iff (p s : str) :
  startswith p s = true <-> exists post, s = p ++ post.
Proof.
  revert s. induction p as [|a p IH]; intros s; simpl.
  - split; eauto.
  - destruct s as [|b s].
    + split; [discriminate | intros (post & H); discriminate H].
    + rewrite andb_true_iff, Ascii.eqb_eq, IH. split.
      * intros (-> & post & ->). eauto.
      * intros (post & H). injection H as -> ->. eauto.
Qed.

(** [sub in s]: [s] is [sub] between two strings. *)
Lemma contains_iff (p s : str) :
  contains p s = true <-> exists pre post, s = pre ++ p ++ post.
Proof.
  induction s as [|c s IH].
  - simpl. rewrite orb_false_r, startswith_iff. split.
    + intros (post & H). exists [], post. exact H.
    + intros (pre & post & H). symmetry in H.
      apply app_eq_nil in H as [-> H]. apply app_eq_nil in H as [-> ->].
      now exists [].
  - change (contains p (c :: s))
      with (startswith p (c :: s) || contains p s).
    rewrite orb_true_iff, startswith_iff, IH. split.
    + intros [(post & H)|(pre & post & ->)].
      * exists [], post. exact H.
      * now exists (c :: pre), post.
    + intros ([|d pre] & post & H).
      * left. now exists post.
      * right. injection H as -> ->. eauto.
Qed.

Lemma contains_in_all (p s : str) (c : ascii) :
  contains p s = true -> In c p -> In c s.
Proof.
  intros H Hc. apply contains_iff in H as (pre & post & ->).
  apply in_or_app. right. apply in_or_app. now left.
Qed.

Lemma contains_rev (p s : str) : contains (rev p) (rev s) = contains p s.
Proof.
  apply eq_true_iff_eq. rewrite !contains_iff. split.
  - intros (pre & post & H). exists (rev post), (rev pre).
    apply (f_equal (@rev ascii)) in H.
    rewrite rev_involutive, !rev_app_distr, rev_involutive in H.
    now rewrite <- app_assoc in H.
  - intros (pre & post & ->). exists (rev post), (rev pre).
    now rewrite !rev_app_distr, <- app_assoc.
Qed.

Lemma contains_lstrip (a : ascii) (p s : str) :
  is_space a = false ->
  contains (a :: p) s = true -> contains (a :: p) (lstrip s) = true.
Proof.
  intros Ha. induction s as [|c s IH]; [auto|].
  simpl lstrip. destruct (is_space c) eqn:Hc; [|auto].
  change (contains (a :: p) (c :: s))
    with (startswith (a :: p) (c :: s) || contains (a :: p) s).
  simpl startswith. destruct (Ascii.eqb a c) eqn:E.
  - apply Ascii.eqb_eq in E. congruence.
  - simpl. exact IH.
Qed.

(** A pattern that neither starts nor ends with whitespace survives
    [strip]. *)
Lemma contains_strip (a b : ascii) (p s : str) :
  is_space a = false -> is_space b = false ->
  contains (a :: p ++ [b]) s = true ->
  contains (a :: p ++ [b]) (strip s) = true.
Proof.
  intros Ha Hb H. unfold strip, rstrip.
  assert (E : rev (a :: p ++ [b]) = b :: rev p ++ [a])
    by (simpl; now rewrite rev_app_distr).
  rewrite <- contains_rev, rev_involutive, E.
  apply contains_lstrip; auto.
  rewrite <- E, contains_rev.
  now apply contains_lstrip.
Qed.

End StripFacts.

(** * More on the chunker *)

Section ChunkerInvariants.

Variable chunk_size : Z.

(** A property [P] of buffers that holds of the empty buffer, of a sentence
    that opens a buffer and of a buffer after a sentence is accumulated
    holds of the buffer behind every chunk. *)
Section Buffers.

Variables (P Q : str -> Prop).
Hypothesis P_open : forall s, Q s -> P s.
Hypothesis P_accumulate : forall cur s, P cur -> Q s -> P (cur ++ s ++ lit ".").

Lemma from_buffer_step (st : Chunker) (s : str) :
  Q s -> P (current_chunk st) -> Forall (from_buffer P) (chunks st) ->
  P (current_chunk (chunk_step chunk_size st s))
  /\ Forall (from_buffer P) (chunks (chunk_step chunk_size st s)).
Proof.
  intros Hs Hc Hf. unfold chunk_step.
  destruct (overflows _ _ _); simpl; split; auto.
  apply Forall_app. split; auto.
  constructor; [|constructor]. now exists (current_chunk st).
Qed.

Lemma from_buffer_loop (l : list str) (st : Chunker) :
  Forall Q l -> P (current_chunk st) -> Forall (from_buffer P) (chunks st) ->
  P (current_chunk (fold_left (chunk_step chunk_size) l st))
  /\ Forall (from_buffer P) (chunks (fold_left (chunk_step chunk_size) l st)).
Proof.
  intros Hl. revert st.
  induction Hl as [|s l Hs _ IH]; intros st Hc Hf; simpl; auto.
  destruct (from_buffer_step st s Hs Hc Hf) as [Hc' Hf']. now apply IH.
Qed.

Lemma from_buffer_chunks (doc : str) :
  P [] -> Forall Q (re_split doc) ->
  Forall (from_buffer P) (create_chunks doc chunk_size).
Proof.
  intros H0 Hq. unfold create_chunks, chunk_finish, chunk_loop.
  destruct (from_buffer_loop (re_split doc) chunker_init Hq H0
              (List.Forall_nil _)) as [Hc Hf].
  destruct (truthy _); auto.
  apply Forall_app. split; auto.
  constructor; [|constructor]. eexists. split; [exact Hc|reflexivity].
Qed.

End Buffers.

(** After an iteration there is a chunk or the buffer is not blank. *)
Lemma chunk_step_progress (st : Chunker) (s : str) :
  chunks (chunk_step chunk_size st s) <> []
  \/ blank (current_chunk (chunk_step chunk_size st s)) = false.
Proof.
  unfold chunk_step. destruct (overflows _ _ _); simpl.
  - left. now destruct (chunks st).
  - right. rewrite !blank_app. simpl. now rewrite !andb_false_r.
Qed.

Lemma numbered_step (st : Chunker) (s : str) :
  numbered st -> numbered (chunk_step chunk_size st s).
Proof.
  intros [Hm Hn]. unfold chunk_step, numbered.
  destruct (overflows _ _ _); simpl; auto.
  rewrite length_app, Nat.add_1_r, seq_S, !map_app, Hm, Hn. simpl.
  split; [reflexivity | lia].
Qed.

Lemma numbered_loop (l : list str) (st : Chunker) :
  numbered st -> numbered (fold_left (chunk_step chunk_size) l st).
Proof.
  revert st. induction l as [|s l IH]; intros st H; simpl; auto.
  apply IH, numbered_step, H.
Qed.

(** While the buffer with all the sentences still to come fits, no chunk
    is closed. *)
Lemma chunk_loop_fits (l : list str) (st : Chunker) :
  (len (current_chunk st ++ first_buffer l) <= chunk_size)%Z ->
  fold_left (chunk_step chunk_size) l st
  = mkChunker (chunks st) (current_chunk st ++ first_buffer l) (next_id st).
Proof.
  revert st. induction l as [|s l IH]; intros st H.
  - simpl. unfold first_buffer. simpl. rewrite app_nil_r. now destruct st.
  - assert (E : first_buffer (s :: l) = (s ++ lit ".") ++ first_buffer l)
      by reflexivity.
    rewrite E in *. simpl fold_left.
    assert (Ho : overflows chunk_size (current_chunk st) s = false).
    { unfold overflows. apply andb_false_iff. left.
      rewrite Z.gtb_ltb. apply Z.ltb_ge.
      rewrite !len_app in *.
      pose proof (len_nonneg (lit ".")). pose proof (len_nonneg (first_buffer l)).
      lia. }
    unfold chunk_step at 2. rewrite Ho.
    rewrite IH; simpl.
    + now rewrite <- !app_assoc.
    + now rewrite <- !app_assoc in *.
Qed.

Lemma first_buffer_not_blank (l : list str) :
  l <> [] -> blank (first_buffer l) = false.
Proof.
  destruct l as [|s l]; [congruence|]. intros _.
  unfold first_buffer, dotted. simpl. rewrite !blank_app. simpl.
  now rewrite andb_false_r.
Qed.

Lemma plain_period_only (s : str) : plain s -> period_only s.
Proof.
  intros H c Hc Ht. unfold plain in H. rewrite List.Forall_forall in H.
  rewrite (H c Hc) in Ht. discriminate.
Qed.

Lemma period_only_app (a b : str) :
  period_only a -> period_only b -> period_only (a ++ b).
Proof.
  intros Ha Hb c Hc. apply in_app_or in Hc as [Hc|Hc]; auto.
Qed.

Lemma period_only_dot : period_only (lit ".").
Proof. intros c [<-|[]] _. reflexivity. Qed.

Lemma period_only_strip (b : str) : period_only b -> period_only (strip b).
Proof. intros H c Hc. apply H. now apply in_strip_inv. Qed.

(** The page scan gives a label of one of the two kinds. *)
Lemma find_page_info_label (b : str) : page_label (find_page_info b).
Proof.
  unfold find_page_info, page_label.
  destruct (List.find _ _) as [line|] eqn:E; [|auto].
  apply List.find_some in E as [_ E].
  destruct (truthy (strip line)); [|auto].
  right. right. split; [|apply strip_idempotent].
  change (lit "--- Page") with ("-"%char :: lit "-- Pag" ++ ["e"%char]) in *.
  now apply contains_strip.
Qed.

Lemma page_label_step (st : Chunker) (s : str) :
  Forall (fun c => page_label (page_info c)) (chunks st) ->
  Forall (fun c => page_label (page_info c))
         (chunks (chunk_step chunk_size st s)).
Proof.
  intros H. unfold chunk_step. destruct (overflows _ _ _); simpl; auto.
  apply Forall_app. split; auto.
  constructor; [|constructor]. simpl. apply find_page_info_label.
Qed.

Lemma page_label_loop (l : list str) (st : Chunker) :
  Forall (fun c => page_label (page_info c)) (chunks st) ->
  Forall (fun c => page_label (page_info c))
         (chunks (fold_left (chunk_step chunk_size) l st)).
Proof.
  revert st. induction l as [|s l IH]; intros st H; simpl; auto.
  apply IH, page_label_step, H.
Qed.

End ChunkerInvariants.

(** X1: the chunker returns at least one chunk, whatever the text and the
    target size. *)
Theorem create_chunks_nonempty (doc : str) (chunk_size : Z) :
  create_chunks doc chunk_size <> [].
Proof.
  unfold create_chunks, chunk_finish.
  rewrite (app_removelast_last [] (re_split_nonempty doc)).
  rewrite chunk_loop_snoc, truthy_strip.
  set (st := chunk_loop chunk_size _).
  destruct (chunk_step_progress chunk_size st (List.last (re_split doc) []))
    as [H|H].
  - destruct (negb _); auto.
    destruct (chunks (chunk_step chunk_size st (List.last (re_split doc) [])));
      [congruence | discriminate].
  - rewrite H. simpl.
    destruct (chunks (chunk_step chunk_size st (List.last (re_split doc) [])));
      discriminate.
Qed.

(** X2: the identifiers of the chunks are 0, 1, 2, ... in the order of the
    chunks. *)
Theorem chunk_ids_consecutive (doc : str) (chunk_size : Z) :
  map chunk_id (create_chunks doc chunk_size)
  = map Z.of_nat (seq 0 (length (create_chunks doc chunk_size))).
Proof.
  unfold create_chunks, chunk_finish, chunk_loop.
  assert (H : numbered chunker_init) by (split; reflexivity).
  apply (numbered_loop chunk_size (re_split doc)) in H as [Hm Hn].
  set (st := fold_left _ _ _) in *.
  destruct (truthy _); auto.
  rewrite length_app, Nat.add_1_r, seq_S, !map_app, Hm, Hn. reflexivity.
Qed.

(** X3: the only terminator left in a chunk text is the period, so a query
    word that holds a question mark or an exclamation mark is counted in no
    chunk of the chunker. *)
Theorem terminators_normalised (doc : str) (chunk_size : Z) :
  Forall
    (fun chunk =>
       period_only (text chunk)
       /\ forall word,
            In "?"%char word \/ In "!"%char word ->
            count (lower (text chunk)) word = 0%Z)
    (create_chunks doc chunk_size).
Proof.
  assert (H : Forall (from_buffer period_only)
                     (create_chunks doc chunk_size)).
  { apply (from_buffer_chunks chunk_size period_only plain).
    - apply plain_period_only.
    - intros cur s Hc Hs.
      repeat apply period_only_app; auto using plain_period_only.
      apply period_only_dot.
    - intros c [].
    - apply re_split_plain. }
  eapply List.Forall_impl; [|exact H].
  intros chunk (b & Hb & Ht).
  assert (Hp : period_only (text chunk))
    by (rewrite Ht; now apply period_only_strip).
  split; [exact Hp|].
  intros word Hw. apply count_absent.
  destruct (contains word (lower (text chunk))) eqn:E; [|reflexivity].
  exfalso.
  assert (Hin : exists p, In p ["?"; "!"]%char
                          /\ In p (lower (text chunk))).
  { destruct Hw as [Hw|Hw]; eexists; (split; [|eapply contains_in_all; eauto]);
      simpl; auto. }
  destruct Hin as (p & Hp1 & Hp2).
  unfold lower in Hp2. apply in_map_iff in Hp2 as (c & Hc1 & Hc2).
  assert (c = p).
  { apply lower_char_punct; auto. simpl in *. tauto. }
  subst c.
  assert (Hdot : p = "."%char).
  { apply Hp; auto. simpl in Hp1. now destruct Hp1 as [<-|[<-|[]]]. }
  subst p. simpl in Hp1. destruct Hp1 as [H1|[H1|[]]]; discriminate H1.
Qed.

(** X4: a text whose sentences, each with its period, fit the target size
    together is one chunk: the whole buffer, stripped, with identifier 0
    and the label of the final chunk. *)
Theorem short_text_one_chunk (doc : str) (chunk_size : Z) :
  (len (first_buffer (re_split doc)) <= chunk_size)%Z ->
  create_chunks doc chunk_size
  = [mkChunk (strip (first_buffer (re_split doc))) 0 (lit "Final chunk")].
Proof.
  intros H. unfold create_chunks, chunk_loop.
  rewrite chunk_loop_fits by exact H.
  unfold chunk_finish. simpl. rewrite truthy_strip.
  now rewrite first_buffer_not_blank by apply re_split_nonempty.
Qed.

(** A text of two sentences at the default target size. *)
Lemma short_text_one_chunk_witness :
  create_chunks (lit "Stop the bleeding. Apply a tourniquet.")
                default_chunk_size
  = [mkChunk (lit "Stop the bleeding. Apply a tourniquet..") 0
             (lit "Final chunk")].
Proof.
  rewrite short_text_one_chunk; [reflexivity|].
  vm_compute. discriminate.
Defined.

(** X5: no chunk text starts or ends with whitespace: stripping it again
    changes nothing. *)
Theorem chunk_texts_stripped (doc : str) (chunk_size : Z) :
  Forall (fun chunk => strip (text chunk) = text chunk)
         (create_chunks doc chunk_size).
Proof.
  assert (H : Forall (from_buffer (fun _ => True))
                     (create_chunks doc chunk_size)).
  { apply (from_buffer_chunks chunk_size (fun _ => True) (fun _ => True));
      auto.
    apply List.Forall_forall. auto. }
  eapply List.Forall_impl; [|exact H].
  intros chunk (b & _ & ->). apply strip_idempotent.
Qed.

(** X6: the label of a chunk is "Final chunk", "Unknown page", or a line
    of its buffer that holds the page marker, stripped. *)
Theorem chunk_labels (doc : str) (chunk_size : Z) :
  Forall (fun chunk => page_label (page_info chunk))
         (create_chunks doc chunk_size).
Proof.
  unfold create_chunks, chunk_finish, chunk_loop.
  pose proof (page_label_loop chunk_size (re_split doc) chunker_init
                              (List.Forall_nil _)) as H.
  destruct (truthy _); auto.
  apply Forall_app. split; auto.
  constructor; [|constructor]. simpl. now left.
Qed.

(** * Extraction and start-up *)

Section ExtractionFacts.

Lemma split_on_from_cons (sep fld s : str) (c : ascii) :
  split_on_from sep 0 fld (c :: s)
  = if startswith sep (c :: s)
    then rev fld :: split_on_from sep (length sep - 1) [] s
    else split_on_from sep 0 (c :: fld) s.
Proof. reflexivity. Qed.

Lemma startswith_other (a : ascii) (p : str) (c : ascii) (s : str) :
  Ascii.eqb a c = false -> startswith (a :: p) (c :: s) = false.
Proof. intros H. cbn [startswith]. now rewrite H. Qed.

(** A field without a backslash ends at the next separator. *)
Lemma split_on_field (m fld rest : str) :
  ~ In "\"%char m ->
  split_on_from (lit "\n") 0 fld (m ++ lit "\n" ++ rest)
  = (rev fld ++ m) :: split_on_from (lit "\n") 0 [] rest.
Proof.
  revert fld. induction m as [|c m IH]; intros fld Hm.
  - simpl. now rewrite app_nil_r.
  - assert (Hc : Ascii.eqb "\" c = false).
    { apply Ascii.eqb_neq. intros <-. apply Hm. now left. }
    change ((c :: m) ++ lit "\n" ++ rest) with (c :: (m ++ lit "\n" ++ rest)).
    rewrite split_on_from_cons.
    assert (E : startswith (lit "\n") (c :: m ++ lit "\n" ++ rest) = false)
      by (apply (startswith_other "\"%char ["n"%char]); exact Hc).
    rewrite E, IH by (intros H; apply Hm; now right).
    simpl rev. now rewrite <- app_assoc.
Qed.

(** The page scan of a buffer that starts with a marker line. *)
Lemma find_page_info_marker (m rest : str) :
  ~ In "\"%char m -> contains (lit "--- Page") m = true -> strip m = m ->
  find_page_info (lit "\n" ++ m ++ lit "\n" ++ rest) = m.
Proof.
  intros Hm Hc Hs. unfold find_page_info, split_on.
  change (lit "\n" ++ m ++ lit "\n" ++ rest)
    with ([] ++ lit "\n" ++ m ++ lit "\n" ++ rest).
  rewrite (split_on_field [] [] (m ++ lit "\n" ++ rest)) by (intros []).
  rewrite (split_on_field m [] rest Hm).
  cbn [rev app firstn List.find].
  change (contains (lit "--- Page") []) with false. cbv iota.
  rewrite Hc, Hs. destruct m; [discriminate Hc | reflexivity].
Qed.

(** The first sentence of a text starts with what the text starts with, up
    to the first terminator. *)
Lemma re_split_prefix (h rest : str) :
  plain h -> exists p ps, re_split (h ++ rest) = (h ++ p) :: ps.
Proof.
  induction 1 as [|c h Hc _ (p & ps & IH)].
  - simpl. pose proof (re_split_nonempty rest).
    destruct (re_split rest) as [|p ps]; [congruence|]. eauto.
  - exists p, ps. simpl. now rewrite IH, Hc.
Qed.

Lemma extract_fold (l : list (Z * str)) (acc : str) :
  fold_left (fun text entry => text ++ page_block (fst entry) (snd entry))
            l acc
  = acc ++ concat (map (fun entry => page_block (fst entry) (snd entry)) l).
Proof.
  revert acc. induction l as [|e l IH]; intros acc; simpl.
  - now rewrite app_nil_r.
  - rewrite IH. now rewrite <- app_assoc.
Qed.

(** The extracted text of a document with a page starts with the marker
    of page 1. *)
Lemma extract_pages_cons (page : str) (pages : list str) :
  exists tail,
    extract_pages (page :: pages) = lit "\n--- Page 1 ---\n" ++ tail.
Proof.
  unfold extract_pages. rewrite extract_fold. simpl.
  eexists. unfold page_block. simpl. reflexivity.
Qed.

Lemma extract_pages_truthy (page : str) (pages : list str) :
  truthy (extract_pages (page :: pages)) = true.
Proof. destruct (extract_pages_cons page pages) as [tail ->]. reflexivity. Qed.

Variable chunk_size : Z.

Lemma first_labelled_step (st : Chunker) (s : str) :
  first_labelled (lit "\n--- Page 1 ---\n") (lit "--- Page 1 ---") st ->
  first_labelled (lit "\n--- Page 1 ---\n") (lit "--- Page 1 ---")
                 (chunk_step chunk_size st s).
Proof.
  intros [[Hc (rest & Hr)]|(c0 & cs & Hc & Hl)]; unfold chunk_step;
    destruct (overflows _ _ _); simpl.
  - right. rewrite Hc, Hr. simpl app. eexists. exists []. split; [reflexivity|].
    simpl page_info.
    apply (find_page_info_marker (lit "--- Page 1 ---") rest);
      [|reflexivity|reflexivity].
    simpl. intuition discriminate.
  - left. split; auto. rewrite Hr. exists (rest ++ s ++ lit ".").
    now rewrite <- app_assoc.
  - right. rewrite Hc. simpl. eauto.
  - right. eauto.
Qed.

Lemma first_labelled_loop (l : list str) (st : Chunker) :
  first_labelled (lit "\n--- Page 1 ---\n") (lit "--- Page 1 ---") st ->
  first_labelled (lit "\n--- Page 1 ---\n") (lit "--- Page 1 ---")
                 (fold_left (chunk_step chunk_size) l st).
Proof.
  revert st. induction l as [|s l IH]; intros st H; simpl; auto.
  apply IH, first_labelled_step, H.
Qed.

End ExtractionFacts.

(** X7: in the chunks of a text extracted from a document with at least
    one page, the first chunk is labelled with the marker of page 1,
    unless it is the only chunk and carries the label of the final
    chunk. *)
Theorem first_chunk_page_one (page : str) (pages : list str)
        (chunk_size : Z) :
  match create_chunks (extract_pages (page :: pages)) chunk_size with
  | [] => False
  | c0 :: rest =>
      page_info c0 = lit "--- Page 1 ---"
      \/ (rest = [] /\ page_info c0 = lit "Final chunk")
  end.
Proof.
  destruct (extract_pages_cons page pages) as [tail ->].
  unfold create_chunks, chunk_loop.
  destruct (re_split_prefix (lit "\n--- Page 1 ---\n") tail) as (p & ps & ->).
  { repeat constructor. }
  cbn [fold_left].
  assert (H : first_labelled (lit "\n--- Page 1 ---\n") (lit "--- Page 1 ---")
                (chunk_step chunk_size chunker_init
                            (lit "\n--- Page 1 ---\n" ++ p))).
  { left. unfold chunk_step, overflows. simpl truthy.
    rewrite andb_false_r. simpl. split; auto.
    exists (p ++ lit "."). reflexivity. }
  apply (first_labelled_loop chunk_size ps) in H.
  set (st := fold_left _ _ _) in *. unfold chunk_finish.
  destruct H as [[Hc (rest & Hr)]|(c0 & cs & Hc & Hl)]; rewrite Hc.
  - rewrite truthy_strip, Hr. simpl. right. auto.
  - destruct (truthy _); simpl; auto.
Qed.

(** * More on the scorer *)

Section ScorerMore.

Lemma split_from_blank (s : str) : blank s = true -> split_from [] s = [].
Proof.
  induction s as [|c s IH]; simpl; auto.
  destruct (is_space c); simpl; [exact IH | discriminate].
Qed.

Lemma query_words_blank (query : str) :
  blank query = true -> elements (query_words query) = [].
Proof.
  intros H. unfold query_words, split.
  rewrite split_from_blank by now rewrite blank_lower.
  simpl. apply elements_empty.
Qed.

Lemma term_not_in_blank (query term : str) :
  blank query = true -> In term medical_terms ->
  contains term (lower query) = false.
Proof.
  intros H Ht. pose proof medical_terms_spacefree as Hm.
  rewrite List.Forall_forall in Hm. destruct (Hm term Ht) as [Hs Hne].
  rewrite contains_split by assumption. unfold split.
  now rewrite split_from_blank by now rewrite blank_lower.
Qed.

(** *** Counts *)

Lemma count_nonneg (s sub : str) : (0 <= count s sub)%Z.
Proof.
  destruct sub; simpl; [pose proof (len_nonneg s); lia|].
  apply count_from_nonneg.
Qed.

Lemma count_present (s sub : str) :
  contains sub s = true -> (1 <= count s sub)%Z.
Proof.
  destruct sub as [|a sub]; simpl count.
  - intros _. pose proof (len_nonneg s). lia.
  - induction s as [|c s IH]; intros H; [discriminate H|].
    change (contains (a :: sub) (c :: s))
      with (startswith (a :: sub) (c :: s) || contains (a :: sub) s) in H.
    cbn [count_from].
    destruct (startswith (a :: sub) (c :: s)).
    + pose proof (count_from_nonneg (a :: sub) s (length (a :: sub) - 1)).
      lia.
    + apply IH. exact H.
Qed.

Lemma sum_Z_nonneg (l : list Z) :
  Forall (fun z => (0 <= z)%Z) l -> (0 <= sum_Z l)%Z.
Proof. induction 1; simpl; lia. Qed.

Lemma sum_Z_in (l : list Z) (z : Z) :
  Forall (fun z => (0 <= z)%Z) l -> In z l -> (z <= sum_Z l)%Z.
Proof.
  induction 1 as [|y l Hy Hl IH]; intros Hin; [destruct Hin|].
  pose proof (sum_Z_nonneg l Hl). simpl.
  destruct Hin as [->|Hin]; [lia|]. specialize (IH Hin). lia.
Qed.

Lemma sum_Z_positive (l : list Z) :
  (0 < sum_Z l)%Z -> exists z, In z l /\ (0 < z)%Z.
Proof.
  induction l as [|y l IH]; simpl; [lia|]. intros H.
  destruct (Z.ltb_spec 0 y) as [Hy|Hy].
  - exists y. auto.
  - destruct IH as (z & Hz & Hpos); [lia|]. exists z. auto.
Qed.

Lemma word_hits_counts (chunk_text : str) (words : gset str) :
  Forall (fun z => (0 <= z)%Z) (map (count chunk_text) (elements words)).
Proof.
  apply List.Forall_forall. intros z Hz.
  apply in_map_iff in Hz as (w & <- & _). apply count_nonneg.
Qed.

Lemma term_bonus_nonneg (query_lower chunk_text : str) :
  (0 <= term_bonus query_lower chunk_text)%Z.
Proof. unfold term_bonus. lia. Qed.

Lemma in_query_words (query word : str) :
  In word (elements (query_words query)) <-> In word (split (lower query)).
Proof.
  rewrite <- !list_elem_of_In, elem_of_elements. unfold query_words.
  now rewrite elem_of_list_to_set.
Qed.

(** The score is positive exactly on the chunks that match. *)
Lemma chunk_score_positive (query : str) (chunk : Chunk) :
  (chunk_score query chunk > 0)%Z <-> matches query chunk.
Proof.
  rewrite chunk_score_eq. unfold spec_score, matches.
  pose proof (word_hits_counts (lower (text chunk)) (query_words query)) as Hc.
  pose proof (sum_Z_nonneg _ Hc) as Hw.
  pose proof (term_bonus_nonneg (lower query) (lower (text chunk))) as Hb.
  fold (word_hits (lower (text chunk)) (query_words query)) in Hw.
  split.
  - intros H.
    destruct (Z.ltb_spec 0 (word_hits (lower (text chunk))
                                      (query_words query))) as [Hpos|Hz].
    + left. apply sum_Z_positive in Hpos as (z & Hz & Hpos).
      apply in_map_iff in Hz as (w & <- & Hin).
      exists w. split; [now apply in_query_words|].
      destruct (contains w (lower (text chunk))) eqn:E; [reflexivity|].
      rewrite (count_absent _ _ E) in Hpos. lia.
    + right. unfold term_bonus in *.
      destruct (List.filter _ medical_terms) as [|t l] eqn:E;
        [simpl in H; lia|].
      assert (Ht : In t (List.filter
                          (fun term =>
                             contains term (lower (text chunk))
                             && contains term (lower query))
                          medical_terms)) by (rewrite E; now left).
      apply List.filter_In in Ht as [Ht Hboth].
      apply andb_true_iff in Hboth. exists t. tauto.
  - intros [(w & Hin & Hc1)|(t & Hin & Hc1 & Hc2)].
    + apply count_present in Hc1.
      assert (Hle : (count (lower (text chunk)) w
                     <= word_hits (lower (text chunk)) (query_words query))%Z).
      { apply sum_Z_in; auto. apply in_map. now apply in_query_words. }
      lia.
    + unfold term_bonus.
      assert (Hf : In t (List.filter
                          (fun term =>
                             contains term (lower (text chunk))
                             && contains term (lower query))
                          medical_terms)).
      { apply List.filter_In. split; auto. now rewrite Hc1, Hc2. }
      destruct (List.filter _ medical_terms); [destruct Hf|].
      simpl length. lia.
Qed.

(** *** The sort *)

Lemma insert_desc_perm (x : Scored) (l : list Scored) :
  Permutation (x :: l) (insert_desc x l).
Proof.
  induction l as [|y l IH]; simpl; [reflexivity|].
  destruct (score y >? score x)%Z; [|reflexivity].
  rewrite perm_swap. now constructor.
Qed.

Lemma sort_desc_perm (l : list Scored) : Permutation l (sort_desc l).
Proof.
  induction l as [|x l IH]; simpl; [reflexivity|].
  rewrite <- insert_desc_perm. now constructor.
Qed.

Lemma sorted_app (a b : list Scored) :
  StronglySorted by_score_desc (a ++ b) ->
  forall r r', In r a -> In r' b -> (score r' <= score r)%Z.
Proof.
  induction a as [|x a IH]; intros H r r' Hr Hr'; [destruct Hr|].
  simpl in H. apply StronglySorted_inv in H as [Hs Hx].
  destruct Hr as [->|Hr]; [|eauto].
  rewrite List.Forall_forall in Hx.
  specialize (Hx r' (in_or_app _ _ _ (or_intror Hr'))).
  unfold by_score_desc in Hx. lia.
Qed.

Lemma firstn_rest {A : Type} (m : nat) (l : list A) :
  l = firstn m l ++ skipn (length (firstn m l)) l.
Proof.
  rewrite length_firstn.
  destruct (Nat.le_gt_cases m (length l)) as [H|H].
  - rewrite Nat.min_l by exact H. symmetry. apply firstn_skipn.
  - rewrite Nat.min_r by lia. rewrite firstn_all2, skipn_all by lia.
    now rewrite app_nil_r.
Qed.

Lemma firstn_more {A : Type} (a b : nat) (l : list A) :
  a <= b -> exists more, firstn b l = firstn a l ++ more.
Proof.
  revert b l. induction a as [|a IH]; intros b l H.
  - simpl. eauto.
  - destruct b as [|b]; [lia|]. destruct l as [|x l]; simpl.
    + now exists [].
    + destruct (IH b l) as [more ->]; [lia|]. eauto.
Qed.

Lemma scored_by_words (q1 q2 : str) (chunks : list Chunk) :
  query_words q1 = query_words q2 ->
  scored_chunks q1 chunks = scored_chunks q2 chunks.
Proof.
  intros H. rewrite !scored_chunks_filter.
  induction chunks as [|c chunks IH]; [reflexivity|].
  cbn [List.filter]. rewrite (chunk_score_by_words q1 q2 c H).
  destruct (chunk_score q2 c >? 0)%Z; cbn [map]; rewrite IH; auto.
  f_equal. unfold scored. now rewrite (chunk_score_by_words q1 q2 c H).
Qed.

(** *** Joined arguments *)

Lemma split_from_space (word a b : str) (c : ascii) :
  is_space c = true ->
  split_from word (a ++ c :: b) = split_from word a ++ split b.
Proof.
  intros Hc. revert word. induction a as [|x a IH]; intros word; simpl.
  - now rewrite Hc.
  - destruct (is_space x); [|apply IH].
    rewrite IH. now rewrite app_assoc.
Qed.

Lemma split_join (args : list str) :
  split (join (lit " ") args) = flat_map split args.
Proof.
  induction args as [|p [|q args] IH].
  - reflexivity.
  - simpl. now rewrite app_nil_r.
  - change (join (lit " ") (p :: q :: args))
      with (p ++ " "%char :: join (lit " ") (q :: args)).
    unfold split at 1. rewrite split_from_space by reflexivity.
    rewrite IH. reflexivity.
Qed.

Lemma lower_join (args : list str) :
  lower (join (lit " ") args) = join (lit " ") (map lower args).
Proof.
  induction args as [|p [|q args] IH]; [reflexivity | reflexivity |].
  change (join (lit " ") (p :: q :: args))
    with (p ++ " "%char :: join (lit " ") (q :: args)).
  unfold lower at 1. rewrite map_app. cbn [map].
  fold (lower p). fold (lower (join (lit " ") (q :: args))). rewrite IH.
  reflexivity.
Qed.

Lemma query_words_join (args : list str) :
  query_words (join (lit " ") args) = list_to_set (argument_words args).
Proof.
  unfold query_words, argument_words.
  rewrite lower_join, split_join. now rewrite flat_map_concat_map, map_map,
    <- flat_map_concat_map.
Qed.

End ScorerMore.

(** A blank query scores nothing on any chunk. *)
Lemma chunk_score_blank (query : str) (chunk : Chunk) :
  blank query = true -> chunk_score query chunk = 0%Z.
Proof.
  intros H. rewrite chunk_score_eq. unfold spec_score, word_hits, term_bonus.
  rewrite (query_words_blank query H), filter_none; [reflexivity|].
  intros t Ht. rewrite (term_not_in_blank query t H Ht). apply andb_false_r.
Qed.

(** X9: a query that is empty or all whitespace returns nothing, whatever
    the chunks. *)
Theorem blank_query_no_result (chunks : list Chunk) (query : str)
        (max_results : Z) :
  blank query = true -> search_keywords chunks query max_results = [].
Proof.
  intros H. unfold search_keywords.
  rewrite scored_chunks_filter, filter_none; [apply slice_to_nil|].
  intros c _. now rewrite (chunk_score_blank query c H).
Qed.

(** A query of two spaces. *)
Lemma blank_query_no_result_witness :
  search_keywords [mkChunk (lit "Pack the wound.") 0 (lit "Final chunk")]
                  (lit "  ") default_max_results = [].
Proof. apply blank_query_no_result. reflexivity. Defined.

(** X10: the result holds the best of the matching chunks: together with
    the entries left out it is a rearrangement of all scored chunks, no
    entry left out scores more than an entry returned, and nothing is left
    out when [max_results] is at least the number of matching chunks. *)
Theorem search_results_top (chunks : list Chunk) (query : str)
        (max_results : Z) :
  exists left_out,
    Permutation (scored_chunks query chunks)
                (search_keywords chunks query max_results ++ left_out)
    /\ (forall r r',
           In r (search_keywords chunks query max_results) ->
           In r' left_out -> (score r' <= score r)%Z)
    /\ ((Z.of_nat (length (scored_chunks query chunks)) <= max_results)%Z ->
        left_out = []).
Proof.
  unfold search_keywords.
  set (sorted := sort_desc (scored_chunks query chunks)).
  exists (skipn (length (slice_to sorted max_results)) sorted).
  destruct (slice_to_firstn sorted max_results) as [m Hm].
  assert (E : sorted = slice_to sorted max_results
                       ++ skipn (length (slice_to sorted max_results)) sorted)
    by (rewrite Hm; apply firstn_rest).
  repeat split.
  - rewrite <- E. apply sort_desc_perm.
  - apply sorted_app. rewrite <- E. apply sort_desc_sorted.
  - intros Hlen. apply skipn_all2.
    unfold slice_to. subst sorted.
    destruct (max_results <? 0)%Z eqn:Hneg; [apply Z.ltb_lt in Hneg; lia|].
    rewrite firstn_all2; rewrite length_sort_desc; lia.
Qed.

(** Three matching chunks and room for all of them. *)
Lemma search_results_top_witness :
  exists left_out,
    Permutation
      (scored_chunks (lit "wound")
         [mkChunk (lit "Pack the wound.") 0 (lit "Unknown page");
          mkChunk (lit "Wound, shock, wound.") 1 (lit "Final chunk")])
      (search_keywords
         [mkChunk (lit "Pack the wound.") 0 (lit "Unknown page");
          mkChunk (lit "Wound, shock, wound.") 1 (lit "Final chunk")]
         (lit "wound") default_max_results ++ left_out)
    /\ left_out = [].
Proof.
  destruct (search_results_top
              [mkChunk (lit "Pack the wound.") 0 (lit "Unknown page");
               mkChunk (lit "Wound, shock, wound.") 1 (lit "Final chunk")]
              (lit "wound") default_max_results) as (left_out & Hp & _ & Hn).
  exists left_out. split; [exact Hp|]. apply Hn. vm_compute. discriminate.
Defined.

(** X11: raising [max_results] only adds entries at the end of the
    result. *)
Theorem search_results_grow (chunks : list Chunk) (query : str) (m m' : Z) :
  (0 <= m <= m')%Z ->
  exists more,
    search_keywords chunks query m' = search_keywords chunks query m ++ more.
Proof.
  intros [H0 Hm]. unfold search_keywords, slice_to.
  destruct (m <? 0)%Z eqn:E1; [apply Z.ltb_lt in E1; lia|].
  destruct (m' <? 0)%Z eqn:E2; [apply Z.ltb_lt in E2; lia|].
  apply firstn_more. lia.
Qed.

(** One result, then two. *)
Lemma search_results_grow_witness :
  exists more,
    search_keywords
      [mkChunk (lit "Pack the wound.") 0 (lit "Unknown page");
       mkChunk (lit "Wound, shock, wound.") 1 (lit "Final chunk")]
      (lit "wound") 2
    = search_keywords
        [mkChunk (lit "Pack the wound.") 0 (lit "Unknown page");
         mkChunk (lit "Wound, shock, wound.") 1 (lit "Final chunk")]
        (lit "wound") 1 ++ more.
Proof. apply search_results_grow. lia. Defined.

(** X12: the chunks that can be returned are those that match: the score
    of a chunk is positive exactly when a word of the query occurs in its
    lower-cased text or a medical term occurs in both; and with
    [max_results] not negative a returned entry comes from such a chunk. *)
Theorem score_positive_iff_match (chunks : list Chunk) (query : str)
        (max_results : Z) :
  (forall chunk,
      (chunk_score query chunk > 0)%Z <-> matches query chunk)
  /\ (forall chunk,
         In chunk chunks -> matches query chunk ->
         In (scored query chunk) (scored_chunks query chunks))
  /\ (forall r,
         In r (search_keywords chunks query max_results) ->
         exists chunk,
           In chunk chunks /\ r = scored query chunk
           /\ matches query chunk).
Proof.
  repeat split.
  - apply chunk_score_positive.
  - apply chunk_score_positive.
  - intros chunk Hin Hm. rewrite scored_chunks_filter.
    apply in_map, List.filter_In. split; auto.
    apply Z.gtb_gt. now apply chunk_score_positive.
  - intros r Hr.
    destruct (search_keywords_in _ _ _ _ Hr) as (c & Hc & -> & Hpos).
    exists c. repeat split; auto. now apply chunk_score_positive.
Qed.

(** A chunk that matches through the boost alone is among the scored
    chunks. *)
Lemma score_positive_iff_match_witness :
  In (scored (lit "wounds")
             (mkChunk (lit "Pack the wound.") 0 (lit "Final chunk")))
     (scored_chunks (lit "wounds")
                    [mkChunk (lit "Pack the wound.") 0 (lit "Final chunk")]).
Proof.
  apply (proj1 (proj2 (score_positive_iff_match
                         [mkChunk (lit "Pack the wound.") 0
                                  (lit "Final chunk")]
                         (lit "wounds") default_max_results))).
  - now left.
  - right. exists (lit "wound"). repeat split.
    unfold medical_terms. simpl. tauto.
Defined.

(** X13: the result depends on the command-line arguments through the set
    of their lower-cased words only: how the shell groups the words into
    arguments, their order, their letter case and their repetition do not
    change what [main] searches for. *)
Theorem arguments_by_words (chunks : list Chunk) (args1 args2 : list str)
        (max_results : Z) :
  (forall word,
      In word (argument_words args1) <-> In word (argument_words args2)) ->
  search_keywords chunks (join (lit " ") args1) max_results
  = search_keywords chunks (join (lit " ") args2) max_results.
Proof.
  intros H. unfold search_keywords. f_equal. f_equal.
  apply scored_by_words. rewrite !query_words_join.
  apply set_eq. intros w.
  rewrite !elem_of_list_to_set, !list_elem_of_In. apply H.
Qed.

(** One quoted argument, and the same words in two arguments, reordered
    and capitalised. *)
Lemma arguments_by_words_witness :
  search_keywords [mkChunk (lit "Massive hemorrhage.") 0 (lit "Final chunk")]
                  (join (lit " ") [lit "massive hemorrhage"])
                  default_max_results
  = search_keywords [mkChunk (lit "Massive hemorrhage.") 0 (lit "Final chunk")]
                    (join (lit " ") [lit "Hemorrhage"; lit "MASSIVE"])
                    default_max_results.
Proof.
  apply arguments_by_words. intros word. vm_compute. tauto.
Defined.

(** * The context and the prompt *)

Section PromptFacts.



End PromptFacts.

(** * The interactive shell *)

Section ShellFacts.

Lemma lstrip_split (q : str) :
  exists pre, q = pre ++ lstrip q /\ blank pre = true.
Proof.
  induction q as [|c q (pre & E & Hp)]; [now exists []|].
  simpl. destruct (is_space c) eqn:Hc.
  - exists (c :: pre). simpl. rewrite Hc, Hp. split; [now f_equal | reflexivity].
  - now exists [].
Qed.

Lemma lstrip_rstrip (q : str) : lstrip (rstrip q) = rstrip (lstrip q).
Proof.
  destruct (lstrip_split q) as (pre & E & Hp).
  destruct (lstrip_head q) as [H|(c & t & H & Hc)].
  - rewrite H. assert (Hb : blank q = true) by now apply lstrip_nil_blank.
    now rewrite (rstrip_blank q Hb).
  - rewrite H in *. rewrite E at 1.
    rewrite (rstrip_app pre t c Hc), lstrip_app, Hp, (rstrip_cons c t Hc).
    now apply lstrip_fixed.
Qed.

Lemma strip_rstrip (q : str) : strip (rstrip q) = strip q.
Proof.
  unfold strip. now rewrite lstrip_rstrip, rstrip_idempotent.
Qed.

Lemma split_once_first (sep : ascii) (body rest : str) :
  ~ In sep body -> split_once sep (body ++ sep :: rest) = [body; rest].
Proof.
  induction body as [|c body IH]; intros H; simpl.
  - now rewrite Ascii.eqb_refl.
  - destruct (Ascii.eqb c sep) eqn:E.
    + apply Ascii.eqb_eq in E. subst. exfalso. apply H. now left.
    + rewrite IH; [reflexivity|]. intros Hin. apply H. now right.
Qed.

Lemma in_split (sep : ascii) (s : str) :
  In sep s -> exists body rest, s = body ++ sep :: rest /\ ~ In sep body.
Proof.
  induction s as [|c s IH]; intros H; [destruct H|].
  destruct (Ascii.eqb c sep) eqn:E.
  - apply Ascii.eqb_eq in E. subst. now exists [], s.
  - apply Ascii.eqb_neq in E. destruct H as [H|H]; [congruence|].
    destruct (IH H) as (body & rest & -> & Hb).
    exists (c :: body), rest. split; [reflexivity|].
    intros [Hc|Hc]; [congruence | contradiction].
Qed.

Lemma existsb_none {A : Type} (f : A -> bool) (l : list A) :
  (forall x, In x l -> f x = false) -> existsb f l = false.
Proof.
  intros H. destruct (existsb f l) eqn:E; [|reflexivity].
  apply existsb_exists in E as (x & Hx & Hf). rewrite (H x Hx) in Hf.
  discriminate.
Qed.

Lemma lower_app (a b : str) : lower (a ++ b) = lower a ++ lower b.
Proof. apply map_app. Qed.

Lemma in_lower_colon (s : str) : In ":"%char (lower s) -> In ":"%char s.
Proof.
  unfold lower. intros H. apply in_map_iff in H as (c & Hc & Hin).
  apply (lower_char_punct c ":"%char) in Hc; [now subst | simpl; auto].
Qed.

(** The body of the loop on a line that starts with a prefix ending in the
    first colon of the line. *)
Lemma interpret_prefixed (a : ascii) (body question : str) :
  is_space a = false -> ~ In ":"%char (a :: body) ->
  existsb (fun p => startswith p (lower (a :: body ++ [":"%char])))
          urgent_prefixes = true ->
  interpret ((a :: body ++ [":"%char]) ++ question)
  = Ask (strip question) true.
Proof.
  intros Ha Hb Hu. unfold interpret.
  assert (Es : strip ((a :: body ++ [":"%char]) ++ question)
               = (a :: body) ++ ":"%char :: rstrip question).
  { unfold strip. cbn [app]. rewrite (lstrip_fixed a _ Ha).
    rewrite <- app_assoc. cbn [app].
    change (a :: body ++ ":"%char :: question)
      with ((a :: body) ++ ":"%char :: question).
    now rewrite rstrip_app. }
  rewrite Es. cbn [app truthy negb].
  assert (Hcolon : In ":"%char (lower (a :: body ++ ":"%char :: rstrip question))).
  { change (a :: body ++ ":"%char :: rstrip question)
      with ((a :: body) ++ ":"%char :: rstrip question).
    rewrite lower_app. apply in_or_app. right. now left. }
  rewrite existsb_none.
  2:{ intros w Hw. destruct (str_eqb _ w) eqn:E; [|reflexivity].
      apply str_eqb_eq in E. rewrite E in Hcolon.
      unfold quit_words in Hw. simpl in Hw, Hcolon.
      exfalso. destruct Hw as [<-|[<-|[<-|[]]]]; simpl in Hcolon;
        intuition discriminate. }
  destruct (str_eqb _ (lit "help")) eqn:Ehelp.
  { apply str_eqb_eq in Ehelp. rewrite Ehelp in Hcolon. simpl in Hcolon.
    exfalso. intuition discriminate. }
  assert (Eu : existsb
                 (fun p => startswith p
                             (lower (a :: body ++ ":"%char :: rstrip question)))
                 urgent_prefixes = true).
  { apply existsb_exists in Hu as (p & Hp & Hs).
    apply existsb_exists. exists p. split; auto.
    apply startswith_iff in Hs as (post & Hs). apply startswith_iff.
    exists (post ++ lower (rstrip question)).
    assert (E : a :: body ++ ":"%char :: rstrip question
                = (a :: body ++ [":"%char]) ++ rstrip question)
      by (cbn [app]; now rewrite <- app_assoc).
    rewrite E, lower_app, Hs. now rewrite <- app_assoc. }
  rewrite Eu.
  change (a :: body ++ ":"%char :: rstrip question)
    with ((a :: body) ++ ":"%char :: rstrip question).
  rewrite (split_once_first ":"%char (a :: body) (rstrip question) Hb).
  cbn [nth_error]. now rewrite strip_rstrip.
Qed.

(** A string whose lower-cased form is a non-empty colon-free string and a
    colon has the same shape. *)
Lemma lower_prefix_shape (prefix : str) (x : ascii) (pb : str) :
  lower prefix = x :: pb ++ [":"%char] ->
  is_space x = false -> ~ In ":"%char (x :: pb) ->
  exists a body,
    prefix = a :: body ++ [":"%char]
    /\ is_space a = false /\ ~ In ":"%char (a :: body).
Proof.
  intros H Hx Hn. unfold lower in H.
  change (x :: pb ++ [":"%char]) with ((x :: pb) ++ [":"%char]) in H.
  apply map_eq_app in H as (l1 & l2 & -> & H1 & H2).
  destruct l1 as [|a body]; [discriminate H1|].
  destruct l2 as [|c [|]]; try discriminate H2.
  injection H2 as H2. injection H1 as Ha Hbody.
  apply (lower_char_punct c ":"%char) in H2; [|simpl; auto]. subst c.
  exists a, body. repeat split.
  - rewrite <- Hx, <- Ha. symmetry. apply is_space_lower_char.
  - intros Hin. apply Hn.
    change (x :: pb) with ([x] ++ pb). rewrite <- Ha, <- Hbody.
    change ([lower_char a] ++ map lower_char body)
      with (map lower_char (a :: body)).
    change ":"%char with (lower_char ":"%char). now apply in_map.
Qed.

Lemma urgent_prefix_shape (prefix : str) :
  In (lower prefix) urgent_prefixes ->
  exists a body,
    prefix = a :: body ++ [":"%char]
    /\ is_space a = false /\ ~ In ":"%char (a :: body).
Proof.
  unfold urgent_prefixes. simpl.
  intros [H|[H|[H|[]]]]; symmetry in H.
  - apply (lower_prefix_shape prefix "u"%char (lit "rgent")); auto.
    simpl. intuition discriminate.
  - apply (lower_prefix_shape prefix "e"%char (lit "mergency")); auto.
    simpl. intuition discriminate.
  - apply (lower_prefix_shape prefix "c"%char (lit "ritical")); auto.
    simpl. intuition discriminate.
Qed.

Lemma colon_in_prefix (p : str) : In p urgent_prefixes -> In ":"%char p.
Proof.
  unfold urgent_prefixes. simpl.
  intros [<-|[<-|[<-|[]]]]; simpl; tauto.
Qed.

End ShellFacts.

(** X15: a line that starts with one of the three urgent prefixes, in any
    letter case, asks what follows the prefix, stripped, as an urgent
    question. *)
Theorem urgent_prefix_stripped (prefix question : str) :
  In (lower prefix) urgent_prefixes ->
  interpret (prefix ++ question) = Ask (strip question) true.
Proof.
  intros H. destruct (urgent_prefix_shape prefix H) as (a & body & E & Ha & Hb).
  subst prefix. apply interpret_prefixed; auto.
  apply existsb_exists. eexists. split; [exact H|].
  apply startswith_iff. exists []. now rewrite app_nil_r.
Qed.

(** The line of the example in the help text, with a capital. *)
Lemma urgent_prefix_stripped_witness :
  interpret (lit "Urgent:" ++ lit " tension pneumothorax treatment ")
  = Ask (lit "tension pneumothorax treatment") true.
Proof.
  rewrite urgent_prefix_stripped; [reflexivity|].
  vm_compute. tauto.
Defined.

(** X16: the index [1] behind [split(':', 1)] never fails, and the
    question passed to [query] is stripped; it is empty only behind an
    urgent prefix. *)
Theorem interpret_question (line : str) :
  interpret line <> Fault
  /\ forall question urgent,
       interpret line = Ask question urgent ->
       strip question = question /\ (urgent = false -> question <> []).
Proof.
  unfold interpret.
  destruct (truthy (strip line)) eqn:Et; cbn [negb];
    [|split; [discriminate | intros q u H; discriminate H]].
  destruct (existsb (str_eqb (lower (strip line))) quit_words);
    [split; [discriminate | intros q u H; discriminate H]|].
  destruct (str_eqb (lower (strip line)) (lit "help"));
    [split; [discriminate | intros q u H; discriminate H]|].
  destruct (existsb _ urgent_prefixes) eqn:Eu.
  - apply existsb_exists in Eu as (p & Hp & Hs).
    apply startswith_iff in Hs as (post & Hs).
    assert (Hc : In ":"%char (strip line)).
    { apply in_lower_colon. rewrite Hs. apply in_or_app. left.
      now apply colon_in_prefix. }
    apply in_split in Hc as (body & rest & -> & Hb).
    rewrite (split_once_first ":"%char body rest Hb). cbn [nth_error].
    split; [discriminate|]. intros q u H. injection H as <- <-.
    split; [apply strip_idempotent | discriminate].
  - split; [discriminate|]. intros q u H. injection H as <- <-.
    split; [apply strip_idempotent|]. intros _. now apply truthy_true.
Qed.

(** A question between spaces. *)
Lemma interpret_question_witness :
  strip (lit "shock prevention") = lit "shock prevention"
  /\ lit "shock prevention" <> [].
Proof.
  destruct (proj2 (interpret_question (lit "  shock prevention "))
                  (lit "shock prevention") false eq_refl) as [H1 H2].
  split; [exact H1 | now apply H2].
Defined.

(** The tags of a markup that is given in full are computed. *)
Ltac parsed :=
  match goal with
  | |- context [Markup.parse ?s] =>
      let v := eval vm_compute in (Markup.parse s) in
      change (Markup.parse s) with v
  end.

(** * Console markup *)

Section MarkupFacts.

Lemma str_eqb_refl (a : str) : str_eqb a a = true.
Proof. now apply str_eqb_eq. Qed.

Lemma split_once_absent (sep : ascii) (s : str) :
  ~ In sep s -> split_once sep s = [s].
Proof.
  induction s as [|c s IH]; intros H; [reflexivity|].
  cbn [split_once].
  assert (E : Ascii.eqb c sep = false).
  { apply Ascii.eqb_neq. intros ->. apply H. now left. }
  rewrite E, IH; [reflexivity|]. intros Hs. apply H. now right.
Qed.

Lemma tag_of_plain (t : str) :
  ~ In "="%char t -> Markup.tag_of t = Markup.mkTag t None.
Proof.
  intros H. unfold Markup.tag_of. now rewrite split_once_absent.
Qed.

(** A character that is no opening bracket starts no tag. *)
Lemma tag_text_at_other (c : ascii) (s : str) :
  c <> "["%char -> Markup.tag_text_at (c :: s) = None.
Proof.
  intros H. apply Ascii.eqb_neq in H.
  destruct s; cbn [Markup.tag_text_at]; [reflexivity|]. now rewrite H.
Qed.

Lemma tag_rest_app (t rest : str) :
  Forall (fun c => c <> "["%char /\ c <> "]"%char) t ->
  Markup.tag_rest (t ++ "]"%char :: rest) = Some t.
Proof.
  induction 1 as [|c t [H1 H2] _ IH]; [reflexivity|].
  cbn [app Markup.tag_rest].
  apply Ascii.eqb_neq in H1, H2. now rewrite H1, H2, IH.
Qed.

Lemma tag_text_at_tag (c : ascii) (t rest : str) :
  Markup.tag_first c = true ->
  Forall (fun c => c <> "["%char /\ c <> "]"%char) t ->
  Markup.tag_text_at ("["%char :: c :: t ++ "]"%char :: rest)
  = Some (c :: t).
Proof.
  intros Hc Ht. cbn [Markup.tag_text_at]. rewrite Hc.
  now rewrite tag_rest_app.
Qed.

(** The equations of the scan. *)
Lemma parse_from_skip (escapes k : nat) (p : Z) (c : ascii) (s : str) :
  Markup.parse_from escapes (S k) p (c :: s)
  = Markup.parse_from 0 k (p + Markup.width c) s.
Proof. reflexivity. Qed.

Lemma parse_from_read (escapes : nat) (p : Z) (c : ascii) (s : str) :
  Markup.parse_from escapes 0 p (c :: s)
  = if Ascii.eqb c "\"
    then Markup.parse_from (S escapes) 0 (p + Markup.width c) s
    else match Markup.tag_text_at (c :: s) with
         | Some tag_text =>
             if Nat.even escapes
             then (p, Markup.tag_of tag_text)
                  :: Markup.parse_from 0 (S (length tag_text))
                                       (p + Markup.width c) s
             else Markup.parse_from 0 (S (length tag_text))
                                    (p + Markup.width c) s
         | None => Markup.parse_from 0 0 (p + Markup.width c) s
         end.
Proof. reflexivity. Qed.

(** Text without an opening bracket holds no tag; behind it the scan goes
    on with the backslashes that end the text. *)
Lemma parse_from_text (body rest : str) :
  ~ In "["%char body ->
  forall escapes p,
  exists escapes' p',
    Markup.parse_from escapes 0 p (body ++ rest)
    = Markup.parse_from escapes' 0 p' rest.
Proof.
  induction body as [|c body IH]; intros H escapes p; [simpl; eauto|].
  assert (Hc : c <> "["%char) by (intros ->; apply H; now left).
  assert (Hb : ~ In "["%char body) by (intros Hb; apply H; now right).
  change ((c :: body) ++ rest) with (c :: (body ++ rest)).
  rewrite parse_from_read, (tag_text_at_other c _ Hc).
  destruct (Ascii.eqb c "\"); apply IH; assumption.
Qed.

(** The characters of a match are passed over. *)
Lemma parse_from_over (a rest : str) (p : Z) :
  exists p',
    Markup.parse_from 0 (length a) p (a ++ rest)
    = Markup.parse_from 0 0 p' rest.
Proof.
  revert p. induction a as [|c a IH]; intros p; [simpl; eauto|].
  cbn [length app]. rewrite parse_from_skip. apply IH.
Qed.

(** A tag in front of the scan. *)
Lemma parse_from_tag (escapes : nat) (p : Z) (c : ascii) (t rest : str) :
  Markup.tag_first c = true ->
  Forall (fun c => c <> "["%char /\ c <> "]"%char) t ->
  exists p',
    Markup.parse_from escapes 0 p ("["%char :: c :: t ++ "]"%char :: rest)
    = (if Nat.even escapes then [(p, Markup.tag_of (c :: t))] else [])
      ++ Markup.parse_from 0 0 p' rest.
Proof.
  intros Hc Ht. rewrite parse_from_read, tag_text_at_tag by assumption.
  change (Ascii.eqb "[" "\") with false. cbv iota.
  destruct (parse_from_over ((c :: t) ++ ["]"%char]) rest
                            (p + Markup.width "[")) as [p' E].
  rewrite <- app_assoc, length_app, Nat.add_1_r in E. cbn [app] in E.
  exists p'. destruct (Nat.even escapes); cbn [app]; now rewrite E.
Qed.

(** The tags of a line with a tag closed out of order, and of a line with
    an escaped tag. *)
Example parse_example :
  Markup.parse (lit "[bold]Bold[italic] bold and italic [/bold]italic[/italic]")
  = [(0, Markup.mkTag (lit "bold") None);
     (10, Markup.mkTag (lit "italic") None);
     (35, Markup.mkTag (lit "/bold") None);
     (48, Markup.mkTag (lit "/italic") None)]%Z
  /\ Markup.parse (lit "\[red]x[/red] [link=a b]y")
     = [(7, Markup.mkTag (lit "/red") None);
        (14, Markup.mkTag (lit "link") (Some (lit "a b")))]%Z.
Proof. split; vm_compute; reflexivity. Qed.

(** What the two lines raise when a style name is its own normal form:
    nothing, and the closing tag that is left without its escaped
    opening tag. *)
Example markup_error_example :
  markup_error (mkRich plain_normalize (fun _ => None))
    (lit "[bold]Bold[italic] bold and italic [/bold]italic[/italic]")
  = None
  /\ markup_error (mkRich plain_normalize (fun _ => None))
       (lit "\[red]x[/red] [link=a b]y")
     = Some (lit "closing tag '[/red]' at position 7 doesn't match any open tag").
Proof. split; vm_compute; reflexivity. Qed.

Variable rich : Rich.

(** The equations of the loop over the tags. *)
Lemma render_error_open (style_stack : list Markup.Tag) (p : Z)
      (t : str) (ps : option str) (rest : list (Z * Markup.Tag)) :
  startswith (lit "/") t = false ->
  Markup.render_error (normalize rich) (handler_error rich) style_stack
                      ((p, Markup.mkTag t ps) :: rest)
  = Markup.render_error (normalize rich) (handler_error rich)
                        (Markup.mkTag (normalize rich t) ps :: style_stack)
                        rest.
Proof. intros H. cbn [Markup.render_error Markup.name]. now rewrite H. Qed.

(** A closing tag that names the tag opened last, which has no
    parameters. *)
Lemma render_error_close (below : list Markup.Tag) (p : Z) (t : str)
      (ps : option str) (rest : list (Z * Markup.Tag)) :
  strip t = t -> truthy t = true ->
  Markup.render_error (normalize rich) (handler_error rich)
                      (Markup.mkTag (normalize rich t) None :: below)
                      ((p, Markup.mkTag ("/"%char :: t) ps) :: rest)
  = Markup.render_error (normalize rich) (handler_error rich) below rest.
Proof.
  intros Hs Ht.
  cbn [Markup.render_error Markup.name startswith lit list_ascii_of_string
       tl].
  change (Ascii.eqb "/" "/") with true. cbn [andb].
  rewrite Hs, Ht. cbn [Markup.pop_style Markup.name].
  rewrite str_eqb_refl. unfold Markup.closed_error.
  cbn [Markup.name Markup.parameters].
  now destruct (startswith _ _).
Qed.

(** A closing tag that names no open tag. *)
Lemma render_error_unmatched (open_name : str) (ps0 : option str) (p : Z)
      (t : str) (rest : list (Z * Markup.Tag)) :
  strip t = t -> truthy t = true -> open_name <> normalize rich t ->
  Markup.render_error (normalize rich) (handler_error rich)
                      [Markup.mkTag open_name ps0]
                      ((p, Markup.mkTag ("/"%char :: t) None) :: rest)
  = Some (lit "closing tag '[/" ++ t ++ lit "]' at position " ++ of_int p
          ++ lit " doesn't match any open tag").
Proof.
  intros Hs Ht Hn.
  cbn [Markup.render_error Markup.name startswith lit list_ascii_of_string
       tl].
  change (Ascii.eqb "/" "/") with true. cbn [andb].
  rewrite Hs, Ht. cbn [Markup.pop_style Markup.name].
  destruct (str_eqb open_name (normalize rich t)) eqn:E;
    [apply str_eqb_eq in E; contradiction|].
  unfold Markup.markup. cbn [Markup.parameters Markup.name].
  f_equal. unfold lit. simpl. now rewrite <- !app_assoc.
Qed.

(** Text between a tag and its closing tag renders when it holds no
    opening bracket. *)
Lemma wrapped_renders (t body : str) :
  style_tag t = true -> ~ In "["%char body ->
  markup_error rich (lit "[" ++ t ++ lit "]" ++ body ++ lit "[/" ++ t
                     ++ lit "]")
  = None.
Proof.
  intros Ht Hb. unfold style_tag in Ht. destruct t as [|c t]; [discriminate|].
  apply andb_prop in Ht as [Ht Hs]. apply andb_prop in Ht as [Ht Hf].
  apply andb_prop in Ht as [Hc Hn].
  apply str_eqb_eq in Hs. apply negb_true_iff in Hn.
  assert (Hall : Forall (fun x => x <> "["%char /\ x <> "]"%char
                                   /\ x <> "="%char) (c :: t)).
  { apply List.Forall_forall. intros x Hx.
    apply (proj1 (forallb_forall _ _) Hf) in Hx.
    apply negb_true_iff in Hx.
    apply orb_false_elim in Hx as [Hx H3].
    apply orb_false_elim in Hx as [H1 H2].
    apply Ascii.eqb_neq in H1, H2, H3. auto. }
  assert (Hbr : Forall (fun x => x <> "["%char /\ x <> "]"%char) (c :: t))
    by (eapply List.Forall_impl; [|exact Hall]; simpl; tauto).
  assert (Heq : ~ In "="%char (c :: t)).
  { intros Hin. apply (proj1 (List.Forall_forall _ _) Hall) in Hin.
    tauto. }
  unfold markup_error, Markup.parse.
  change (lit "[" ++ (c :: t) ++ lit "]" ++ body ++ lit "[/" ++ (c :: t)
          ++ lit "]")
    with ("["%char :: c :: t ++ "]"%char
          :: (body ++ "["%char :: "/"%char :: (c :: t) ++ "]"%char :: [])).
  destruct (parse_from_tag 0 0 c t
              (body ++ "["%char :: "/"%char :: (c :: t) ++ "]"%char :: [])
              Hc (Forall_inv_tail Hbr)) as [p1 ->].
  destruct (parse_from_text body
              ("["%char :: "/"%char :: (c :: t) ++ "]"%char :: [])
              Hb 0 p1) as (k & p2 & ->).
  destruct (parse_from_tag k p2 "/"%char (c :: t) [] eq_refl Hbr)
    as [p3 ->].
  cbn [Nat.even app Markup.parse_from].
  rewrite tag_of_plain by assumption.
  rewrite render_error_open
    by (cbn [startswith lit list_ascii_of_string];
        rewrite Ascii.eqb_sym, Hn; reflexivity).
  destruct (Nat.even k); cbn [app]; [|reflexivity].
  rewrite tag_of_plain
    by (intros [H|H]; [discriminate H | contradiction]).
  now rewrite render_error_close.
Qed.

(** The constant lines of the program render. *)
Lemma searching_renders :
  print_error rich (Print (lit "🔍 Searching TCCC handbook...")) = None.
Proof. reflexivity. Qed.

Lemma generating_renders :
  print_error rich (Print (lit "🧠 Generating medical guidance...")) = None.
Proof. reflexivity. Qed.

Lemma nothing_found_renders :
  print_error rich
    (Print (lit "[yellow]No relevant handbook content found[/yellow]"))
  = None.
Proof.
  apply (wrapped_renders (lit "yellow")
           (lit "No relevant handbook content found")); [reflexivity|].
  simpl. intuition discriminate.
Qed.

Lemma query_line_renders (question : str) (urgent : bool) :
  ~ In "["%char question ->
  print_error rich (query_line question urgent) = None.
Proof.
  intros H. unfold query_line, print_error.
  set (colour := if urgent then lit "red" else lit "yellow").
  change (lit "[" ++ colour ++ lit "]🚨 QUERY: " ++ question ++ lit "[/"
          ++ colour ++ lit "]")
    with (lit "[" ++ colour ++ lit "]" ++ (lit "🚨 QUERY: " ++ question)
          ++ lit "[/" ++ colour ++ lit "]").
  rewrite <- app_assoc.
  apply (wrapped_renders colour (lit "🚨 QUERY: " ++ question)).
  - subst colour. now destruct urgent.
  - intros Hin. apply in_app_or in Hin as [Hin|Hin]; [|contradiction].
    simpl in Hin. intuition discriminate.
Qed.

(** The equations of [perform]. *)
Lemma perform_shows (output : Output) (rest : list Effect) :
  print_error rich output = None ->
  perform rich (Shows output :: rest)
  = mkAttempt (Shows output :: performed (perform rich rest))
              (raised (perform rich rest)).
Proof. intros H. cbn [perform]. now rewrite H. Qed.

Lemma perform_raises (output : Output) (rest : list Effect)
      (message : str) :
  print_error rich output = Some message ->
  perform rich (Shows output :: rest) = mkAttempt [] (Some message).
Proof. intros H. cbn [perform]. now rewrite H. Qed.

Variable handbook : list Chunk.
Variable backend : str -> str.

(** A query whose first line raises does nothing else. *)
Lemma query_raises (question : str) (urgent : bool) (message : str) :
  print_error rich (query_line question urgent) = Some message ->
  query rich handbook backend question urgent = mkAttempt [] (Some message).
Proof. intros H. unfold query, query_steps. cbn [app]. now apply perform_raises. Qed.

(** A query whose first line renders searches the handbook and posts the
    prompt. *)
Lemma query_posts (question : str) (urgent : bool) :
  print_error rich (query_line question urgent) = None ->
  exists after,
    performed (query rich handbook backend question urgent)
    = [Shows (query_line question urgent);
       Shows (Print (lit "🔍 Searching TCCC handbook..."));
       Searches (search_keywords handbook question default_max_results)]
      ++ nothing_found
           (search_keywords handbook question default_max_results)
      ++ [Shows (Print (lit "🧠 Generating medical guidance..."));
          Posts (full_prompt question
                   (assemble (search_keywords handbook question
                                              default_max_results)))
                (backend
                   (full_prompt question
                      (assemble (search_keywords handbook question
                                                 default_max_results))))]
      ++ after.
Proof.
  intros H. unfold query, query_steps.
  set (search_results :=
         search_keywords handbook question default_max_results).
  set (prompt := full_prompt question (assemble search_results)).
  cbn [app]. rewrite (perform_shows _ _ H). cbn [performed].
  rewrite (perform_shows _ _ searching_renders). cbn [performed perform].
  destruct search_results as [|r results]; cbn [nothing_found app].
  - rewrite (perform_shows _ _ nothing_found_renders). cbn [performed].
    rewrite (perform_shows _ _ generating_renders). cbn [performed perform].
    eexists. reflexivity.
  - rewrite (perform_shows _ _ generating_renders). cbn [performed perform].
    eexists. reflexivity.
Qed.

End MarkupFacts.

(** C9, at the failing input: the question [wound [/red][red]].  Asked as
    urgent, its first line is well-formed markup and the run searches the
    handbook and posts the prompt.  Asked as not urgent, the same question
    is printed between [[yellow]] and [[/yellow]], its [[/red]] closes
    nothing, and the run ends at its first line with a [MarkupError]:
    nothing is searched and nothing is posted.  The two colour names are
    taken to be different styles. *)
Theorem urgent_alters_retrieval (rich : Rich) (handbook : list Chunk)
        (backend : str -> str) :
  normalize rich (lit "red") <> normalize rich (lit "yellow") ->
  let question := lit "wound [/red][red]" in
  let search_results :=
    search_keywords handbook question default_max_results in
  let prompt := full_prompt question (assemble search_results) in
  (exists after,
      performed (query rich handbook backend question true)
      = [Shows (query_line question true);
         Shows (Print (lit "🔍 Searching TCCC handbook..."));
         Searches search_results]
        ++ nothing_found search_results
        ++ [Shows (Print (lit "🧠 Generating medical guidance..."));
            Posts prompt (backend prompt)]
        ++ after)
  /\ query rich handbook backend question false
     = mkAttempt []
         (Some (lit "closing tag '[/red]' at position 23 doesn't match any open tag")).
Proof.
  intros Hn question search_results prompt. split.
  - apply query_posts. unfold query_line, print_error, markup_error.
    parsed.
    rewrite render_error_open by reflexivity.
    rewrite render_error_close by reflexivity.
    rewrite render_error_open by reflexivity.
    now rewrite render_error_close by reflexivity.
  - apply query_raises. unfold query_line, print_error, markup_error.
    parsed.
    rewrite render_error_open by reflexivity.
    rewrite render_error_unmatched; [reflexivity..|].
    intros E. apply Hn. symmetry. exact E.
Qed.

(** A handbook of one chunk and a backend that echoes the prompt; the
    names of the two colours are their own normal forms. *)
Lemma urgent_alters_retrieval_witness :
  query (mkRich plain_normalize (fun _ => None))
        [mkChunk (lit "Pack the wound.") 0 (lit "Final chunk")]
        (fun prompt => prompt) (lit "wound [/red][red]") false
  = mkAttempt []
      (Some (lit "closing tag '[/red]' at position 23 doesn't match any open tag")).
Proof.
  apply (urgent_alters_retrieval
           (mkRich plain_normalize (fun _ => None))
           [mkChunk (lit "Pack the wound.") 0 (lit "Final chunk")]
           (fun prompt => prompt)).
  vm_compute. discriminate.
Defined.



(** X17: an urgent prefix with nothing but whitespace behind it passes the
    test for an empty line: the empty question is asked as urgent, finds
    nothing, and the reduced prompt with no question in it is posted. *)
Theorem urgent_prefix_alone (rich : Rich) (handbook : list Chunk)
        (backend : str -> str) (prefix padding : str) :
  In (lower prefix) urgent_prefixes -> blank padding = true ->
  let prompt :=
    lit "Emergency Question: " ++ LF ++ LF
    ++ lit "Provide immediate TCCC field guidance:" in
  interpret (prefix ++ padding) = Ask [] true
  /\ exists after,
       performed (query rich handbook backend [] true)
       = [Shows (query_line [] true);
          Shows (Print (lit "🔍 Searching TCCC handbook..."));
          Searches [];
          Shows (Print (lit "[yellow]No relevant handbook content found[/yellow]"));
          Shows (Print (lit "🧠 Generating medical guidance..."));
          Posts prompt (backend prompt)]
         ++ after.
Proof.
  intros Hp Hb prompt. split.
  - destruct (urgent_prefix_shape prefix Hp) as (a & body & E & Ha & Hc).
    subst prefix. rewrite interpret_prefixed; auto.
    + f_equal. now apply strip_nil_blank.
    + apply existsb_exists. eexists. split; [exact Hp|].
      apply startswith_iff. exists []. now rewrite app_nil_r.
  - assert (E : search_keywords handbook [] default_max_results = []).
    { unfold search_keywords.
      rewrite scored_chunks_filter, filter_none; [apply slice_to_nil|].
      intros c _. now rewrite (chunk_score_blank [] c eq_refl). }
    destruct (query_posts rich handbook backend [] true) as [after H].
    { apply query_line_renders. intros []. }
    rewrite E in H. exists after. exact H.
Qed.

(** The prefix alone. *)
Lemma urgent_prefix_alone_witness :
  interpret (lit "emergency:" ++ lit " ") = Ask [] true.
Proof.
  apply (urgent_prefix_alone (mkRich plain_normalize (fun _ => None)) []
                             (fun prompt => prompt)
                             (lit "emergency:") (lit " ")).
  - vm_compute. tauto.
  - reflexivity.
Defined.

(** * The loop of the interactive shell *)

Section LoopFacts.

Variable rich : Rich.
Variable handbook : list Chunk.
Variable backend : str -> str.

Lemma before_before (steps steps' : list Effect) (s : Session) :
  before steps (before steps' s) = before (steps ++ steps') s.
Proof. unfold before. simpl. now rewrite app_assoc. Qed.

Lemma before_nil (s : Session) : before [] s = s.
Proof. now destruct s. Qed.

Lemma unguarded_renders (output : Output) (next : Session) :
  print_error rich output = None ->
  unguarded rich output next = before [Shows output] next.
Proof.
  intros H. unfold unguarded. rewrite (perform_shows rich _ _ H).
  reflexivity.
Qed.

Lemma unguarded_raises (output : Output) (next : Session) (message : str) :
  print_error rich output = Some message ->
  unguarded rich output next = mkSession [] (Escaped message).
Proof.
  intros H. unfold unguarded. rewrite (perform_raises rich _ _ _ H).
  reflexivity.
Qed.

Lemma handler_shape (message : str) :
  goes_on (handler rich message) \/ leaves (handler rich message).
Proof.
  unfold handler.
  destruct (print_error rich (error_line message)) as [m|] eqn:E.
  - right. exists (mkSession [] (Escaped m)). split; [discriminate|].
    intros c. now apply unguarded_raises.
  - left. exists [Shows (error_line message)].
    intros c. now apply unguarded_renders.
Qed.

Lemma guarded_shape (body : Attempt) :
  goes_on (fun continue => guarded rich body continue continue)
  \/ leaves (fun continue => guarded rich body continue continue).
Proof.
  unfold guarded. destruct (raised body) as [m|].
  - destruct (handler_shape m) as [[steps H]|(s & Hs & H)].
    + left. exists (performed body ++ steps). intros c.
      now rewrite H, before_before.
    + right. exists (before (performed body) s). split; [exact Hs|].
      intros c. now rewrite H.
  - left. exists (performed body). reflexivity.
Qed.

Lemma farewell_renders :
  print_error rich (Print (lit "👋 Stay safe in the field!")) = None.
Proof. reflexivity. Qed.

Lemma interrupted_renders :
  print_error rich (Print (lit "\n👋 Stay safe!")) = None.
Proof. reflexivity. Qed.

Lemma turn_stops (input : Input) :
  stops input = true ->
  forall continue,
    turn rich handbook backend input continue
    = match input with
      | Line _ =>
          mkSession [Shows (Print (lit "👋 Stay safe in the field!"))]
                    Returned
      | _ => mkSession [Shows (Print (lit "\n👋 Stay safe!"))] Returned
      end.
Proof.
  intros H c. destruct input as [line| |]; [| |discriminate H].
  - unfold turn. simpl in H.
    destruct (interpret line); try discriminate H.
    unfold guarded. rewrite (perform_shows rich _ _ farewell_renders).
    reflexivity.
  - unfold turn. now rewrite (unguarded_renders _ _ interrupted_renders).
Qed.

Lemma turn_shape (input : Input) :
  goes_on (turn rich handbook backend input)
  \/ leaves (turn rich handbook backend input).
Proof.
  destruct (stops input) eqn:Hs.
  - right. eexists. split; [|intros c; apply (turn_stops input Hs)].
    destruct input; discriminate.
  - destruct input as [line| |]; [|discriminate Hs|apply handler_shape].
    unfold turn. simpl in Hs.
    destruct (interpret line);
      [left; exists []; intros c; now rewrite before_nil
      |discriminate Hs
      |apply guarded_shape
      |apply guarded_shape
      |apply handler_shape].
Qed.

(** The loop returns only at an input that stops it. *)
Lemma turn_returned (input : Input) (continue : Session) :
  status (turn rich handbook backend input continue) = Returned ->
  stops input = true \/ status continue = Returned.
Proof.
  destruct (stops input) eqn:Hs; [now left|]. intros H. right. revert H.
  assert (Hh : forall m, status (handler rich m continue) = Returned ->
                         status continue = Returned).
  { intros m. unfold handler, unguarded.
    destruct (raised _); [discriminate | auto]. }
  assert (Hg : forall body,
             status (guarded rich body continue continue) = Returned ->
             status continue = Returned).
  { intros body. unfold guarded. cbn [status before].
    destruct (raised body); [apply Hh | auto]. }
  destruct input as [line| |]; [|discriminate Hs|apply Hh].
  unfold turn. simpl in Hs.
  destruct (interpret line); auto; [discriminate Hs | apply Hg..|apply Hh].
Qed.

Lemma loop_cons (input : Input) (inputs : list Input) :
  interactive_loop rich handbook backend (input :: inputs)
  = turn rich handbook backend input
         (interactive_loop rich handbook backend inputs).
Proof. reflexivity. Qed.

Lemma loop_returned (inputs : list Input) :
  status (interactive_loop rich handbook backend inputs) = Returned ->
  existsb stops inputs = true.
Proof.
  induction inputs as [|input inputs IH]; [discriminate|].
  rewrite loop_cons. intros H. apply turn_returned in H as [H|H].
  - simpl. now rewrite H.
  - simpl. rewrite (IH H). apply orb_true_r.
Qed.

(** At the first input that stops it, if not before, the loop is left. *)
Lemma loop_stopped (inputs : list Input) :
  existsb stops inputs = true ->
  status (interactive_loop rich handbook backend inputs) <> Running.
Proof.
  induction inputs as [|input inputs IH]; [discriminate|].
  rewrite loop_cons. simpl. intros H.
  destruct (stops input) eqn:Hs.
  - rewrite (turn_stops input Hs). destruct input; discriminate.
  - simpl in H. specialize (IH H).
    destruct (turn_shape input) as [[steps E]|(s & Hn & E)]; rewrite E; auto.
Qed.

(** Once the loop is left, further inputs are not read. *)
Lemma loop_app_left (pre post : list Input) :
  status (interactive_loop rich handbook backend pre) <> Running ->
  interactive_loop rich handbook backend (pre ++ post)
  = interactive_loop rich handbook backend pre.
Proof.
  induction pre as [|input pre IH]; [intros H; now contradiction H|].
  cbn [app]. rewrite !loop_cons.
  destruct (turn_shape input) as [[steps E]|(s & Hn & E)]; rewrite !E.
  - intros H. now rewrite IH.
  - reflexivity.
Qed.

(** While the loop is running, the inputs are handled one after the
    other. *)
Lemma loop_app_running (pre post : list Input) :
  status (interactive_loop rich handbook backend pre) = Running ->
  interactive_loop rich handbook backend (pre ++ post)
  = before (happened (interactive_loop rich handbook backend pre))
           (interactive_loop rich handbook backend post).
Proof.
  induction pre as [|input pre IH]; [intros _; simpl; now rewrite before_nil|].
  cbn [app]. rewrite !loop_cons.
  destruct (turn_shape input) as [[steps E]|(s & Hn & E)]; rewrite !E.
  - intros H. rewrite (IH H), before_before. reflexivity.
  - intros H. contradiction.
Qed.

Lemma end_of_input_renders :
  print_error rich (error_line (lit "EOF when reading a line")) = None.
Proof.
  apply (wrapped_renders rich (lit "red")
           (lit "Error: EOF when reading a line")); [reflexivity|].
  simpl. intuition discriminate.
Qed.

Lemma loop_end_of_input (n : nat) :
  interactive_loop rich handbook backend (repeat EOFError n)
  = mkSession
      (repeat (Shows (error_line (lit "EOF when reading a line"))) n)
      Running.
Proof.
  induction n as [|n IH]; [reflexivity|].
  cbn [repeat]. rewrite loop_cons, IH. unfold turn, handler.
  now rewrite (unguarded_renders _ _ end_of_input_renders).
Qed.

Lemma banner_renders :
  print_error rich
    (Print (lit "\n[bold]🎯 Interactive TCCC Mode - Type 'quit' to exit, 'help' for commands[/bold]"))
  = None.
Proof.
  unfold print_error, markup_error. parsed.
  rewrite render_error_open by reflexivity.
  now rewrite render_error_close by reflexivity.
Qed.

Lemma interactive_banner (inputs : list Input) :
  interactive rich handbook backend inputs
  = before
      [Shows (Print (lit "\n[bold]🎯 Interactive TCCC Mode - Type 'quit' to exit, 'help' for commands[/bold]"))]
      (interactive_loop rich handbook backend inputs).
Proof. unfold interactive. now rewrite (unguarded_renders _ _ banner_renders). Qed.

End LoopFacts.

(** X18: the interactive session returns only after a line that says quit,
    exit or q, or after an interrupt; at the first such input the session
    is over, unless an exception has left it before; and once the session
    is over, by a return or by an exception, nothing that comes after is
    read. *)
Theorem session_ends_at_quit (rich : Rich) (handbook : list Chunk)
        (backend : str -> str) (inputs : list Input) :
  let session := interactive rich handbook backend inputs in
  (status session = Returned -> existsb stops inputs = true)
  /\ (existsb stops inputs = true -> status session <> Running)
  /\ (status session <> Running ->
      forall more,
        interactive rich handbook backend (inputs ++ more) = session).
Proof.
  intros session. subst session. rewrite interactive_banner.
  cbn [status before]. repeat split.
  - apply loop_returned.
  - apply loop_stopped.
  - intros H more. rewrite interactive_banner. now rewrite loop_app_left.
Qed.

(** A question typed after quit. *)
Lemma session_ends_at_quit_witness :
  interactive (mkRich plain_normalize (fun _ => None)) []
              (fun prompt => prompt)
              ([Line (lit " Quit ")] ++ [Line (lit "shock")])
  = interactive (mkRich plain_normalize (fun _ => None)) []
                (fun prompt => prompt) [Line (lit " Quit ")].
Proof.
  apply (proj2 (proj2 (session_ends_at_quit
                         (mkRich plain_normalize (fun _ => None)) []
                         (fun prompt => prompt) [Line (lit " Quit ")]))).
  apply (proj1 (proj2 (session_ends_at_quit
                         (mkRich plain_normalize (fun _ => None)) []
                         (fun prompt => prompt) [Line (lit " Quit ")]))).
  reflexivity.
Defined.

(** A question with a closing tag that closes nothing: [query] raises at
    its first line, the handler prints the message, which holds the tag,
    and raises in turn; the session is over before the next line is
    read. *)
Example session_left_by_exception :
  status (interactive (mkRich plain_normalize (fun _ => None)) []
                      (fun prompt => prompt)
                      [Line (lit "wound [/x]"); Line (lit "quit")])
  = Escaped (lit "closing tag '[/x]' at position 25 doesn't match any open tag").
Proof. vm_compute. reflexivity. Qed.

(** X19: the end of the input does not end the loop: every further call
    of [input] raises [EOFError], which the loop reports and survives, so
    a session that is still running runs on and prints the error again
    and again. *)
Theorem end_of_input_loops (rich : Rich) (handbook : list Chunk)
        (backend : str -> str) (inputs : list Input) (n : nat) :
  status (interactive rich handbook backend inputs) = Running ->
  interactive rich handbook backend (inputs ++ repeat EOFError n)
  = mkSession
      (happened (interactive rich handbook backend inputs)
       ++ repeat (Shows (error_line (lit "EOF when reading a line"))) n)
      Running.
Proof.
  rewrite !interactive_banner. cbn [status before happened]. intros H.
  rewrite loop_app_running by assumption.
  rewrite loop_end_of_input. unfold before. cbn [happened status].
  now rewrite <- !app_assoc.
Qed.

(** A help request, then the end of the input read three times. *)
Lemma end_of_input_loops_witness :
  status (interactive (mkRich plain_normalize (fun _ => None)) []
                      (fun prompt => prompt)
                      ([Line (lit "help")] ++ repeat EOFError 3))
  = Running.
Proof.
  rewrite end_of_input_loops; reflexivity.
Defined.

(** * Runs in which every print renders *)

Section RunFacts.

Variable rich : Rich.

(** Text without an opening bracket holds no tag and renders. *)
Lemma plain_renders (s : str) :
  ~ In "["%char s -> markup_error rich s = None.
Proof.
  intros H. unfold markup_error, Markup.parse.
  destruct (parse_from_text s [] H 0 0) as (k & p & E).
  rewrite app_nil_r in E. now rewrite E.
Qed.

Lemma digits_plain (d : Decimal.uint) :
  ~ In "["%char (lit (NilEmpty.string_of_uint d)).
Proof.
  induction d; simpl; [tauto|..]; intros [H|H]; solve [discriminate H | auto].
Qed.

Lemma of_int_plain (n : Z) : ~ In "["%char (of_int n).
Proof.
  unfold of_int. destruct (n <? 0)%Z.
  - intros H. apply in_app_or in H as [H|H].
    + simpl in H. intuition discriminate.
    + now apply digits_plain in H.
  - apply digits_plain.
Qed.

(** What [replace] returns is made of the characters of the string and of
    the replacement. *)
Lemma replace_from_in (c : ascii) (old new : str) (k : nat) (s : str) :
  In c (replace_from old new k s) -> In c new \/ In c s.
Proof.
  revert k. induction s as [|a s IH]; intros k; [simpl; tauto|].
  cbn [replace_from]. destruct k as [|k].
  - destruct (startswith old (a :: s)).
    + intros H. apply in_app_or in H as [H|H]; [now left|].
      apply IH in H as [H|H]; [now left | right; now right].
    + intros [H|H]; [right; now left|].
      apply IH in H as [H|H]; [now left | right; now right].
  - intros H. apply IH in H as [H|H]; [now left | right; now right].
Qed.

Lemma display_page_plain (label : str) :
  ~ In "["%char label -> ~ In "["%char (display_page label).
Proof.
  intros H Hin. unfold display_page, replace in Hin.
  apply replace_from_in in Hin as [Hin|Hin]; [|contradiction].
  simpl in Hin. intuition discriminate.
Qed.

Lemma source_line_renders (i : Z) (result : Scored) :
  ~ In "["%char (s_page_info result) ->
  print_error rich (source_line (i, result)) = None.
Proof.
  intros H. unfold source_line, print_error.
  change (lit "[dim]" ++ of_int (i + 1) ++ lit ". "
          ++ display_page (s_page_info result)
          ++ lit " (relevance score: " ++ of_int (score result)
          ++ lit ")[/dim]")
    with (lit "[" ++ lit "dim" ++ lit "]"
          ++ (of_int (i + 1) ++ lit ". "
              ++ display_page (s_page_info result)
              ++ lit " (relevance score: " ++ of_int (score result)
              ++ (lit ")" ++ lit "[/" ++ lit "dim" ++ lit "]"))).
  replace (of_int (i + 1) ++ lit ". "
           ++ display_page (s_page_info result)
           ++ lit " (relevance score: " ++ of_int (score result)
           ++ (lit ")" ++ lit "[/" ++ lit "dim" ++ lit "]"))
    with ((of_int (i + 1) ++ lit ". "
           ++ display_page (s_page_info result)
           ++ lit " (relevance score: " ++ of_int (score result)
           ++ lit ")") ++ lit "[/" ++ lit "dim" ++ lit "]")
    by (now rewrite <- !app_assoc).
  apply (wrapped_renders rich (lit "dim")); [reflexivity|].
  intros Hin.
  repeat (apply in_app_or in Hin as [Hin|Hin]);
    try (simpl in Hin; intuition discriminate).
  - now apply of_int_plain in Hin.
  - now apply display_page_plain in Hin.
  - now apply of_int_plain in Hin.
Qed.

Lemma perform_all (steps : list Effect) :
  Forall (renders rich) steps -> perform rich steps = mkAttempt steps None.
Proof.
  induction 1 as [|step steps Hs _ IH]; [reflexivity|].
  cbn [perform]. rewrite IH.
  destruct step; cbn [renders] in Hs; [now rewrite Hs|reflexivity..].
Qed.

Lemma in_enumerate_from {A : Type} (i j : Z) (x : A) (l : list A) :
  In (i, x) (enumerate_from j l) -> In x l.
Proof.
  revert j. induction l as [|y l IH]; intros j; [simpl; tauto|].
  cbn [enumerate_from]. intros [H|H]; [injection H as _ ->; now left|].
  right. eapply IH, H.
Qed.

Lemma separator_renders :
  print_error rich (Print (lit "\n" ++ repeat "="%char 60)) = None.
Proof. reflexivity. Qed.

Lemma sources_renders :
  print_error rich (Print (lit "\n[dim]📖 Sources:[/dim]")) = None.
Proof.
  unfold print_error, markup_error. parsed.
  rewrite render_error_open by reflexivity.
  now rewrite render_error_close by reflexivity.
Qed.

Lemma guidance_panel_renders (response : str) (urgent : bool) :
  ~ In "["%char response ->
  print_error rich (guidance_panel response urgent) = None.
Proof.
  intros H. unfold guidance_panel.
  destruct urgent; cbn [print_error];
    rewrite (plain_renders response H); reflexivity.
Qed.

Lemma sources_shown_render (search_results : list Scored) :
  Forall (fun r => ~ In "["%char (s_page_info r)) search_results ->
  Forall (renders rich) (sources_shown search_results).
Proof.
  intros H. destruct search_results as [|r0 rest]; [constructor|].
  unfold sources_shown. constructor; [apply sources_renders|].
  apply List.Forall_forall. intros step Hs.
  apply in_map_iff in Hs as ([i r] & <- & Hin).
  cbn [renders]. apply source_line_renders.
  apply in_enumerate_from, in_firstn in Hin.
  exact (proj1 (List.Forall_forall _ _) H r Hin).
Qed.

End RunFacts.

(** X24: when the question, the labels of the chunks and the response hold
    no opening bracket, every print of [query] renders: the call does all
    its steps and returns the response. *)
Theorem query_completes (rich : Rich) (handbook : list Chunk)
        (backend : str -> str) (question : str) (urgent : bool) :
  ~ In "["%char question ->
  Forall (fun c => ~ In "["%char (page_info c)) handbook ->
  ~ In "["%char
       (backend
          (full_prompt question
             (assemble
                (search_keywords handbook question default_max_results)))) ->
  query rich handbook backend question urgent
  = mkAttempt (query_steps handbook backend question urgent) None.
Proof.
  intros Hq Hl Hr. unfold query. apply perform_all. unfold query_steps.
  set (search_results :=
         search_keywords handbook question default_max_results) in *.
  assert (Hp : Forall (fun r => ~ In "["%char (s_page_info r))
                      search_results).
  { apply List.Forall_forall. intros r Hin.
    apply search_keywords_in in Hin as (c & Hc & -> & _).
    exact (proj1 (List.Forall_forall _ _) Hl c Hc). }
  repeat (apply Forall_app; split); repeat constructor; cbn [renders].
  - now apply query_line_renders.
  - destruct search_results; repeat constructor.
    apply nothing_found_renders.
  - now apply guidance_panel_renders.
  - now apply sources_shown_render.
Qed.

(** A question that finds the one chunk of the handbook. *)
Lemma query_completes_witness :
  raised (query (mkRich plain_normalize (fun _ => None))
                [mkChunk (lit "Pack the wound.") 0 (lit "Final chunk")]
                (fun prompt => lit "Apply pressure.") (lit "wound") true)
  = None.
Proof.
  rewrite query_completes; [reflexivity|..].
  - simpl. intuition discriminate.
  - repeat constructor. simpl. intuition discriminate.
  - simpl. intuition discriminate.
Defined.

(** * A markup error in the interactive session *)

Section EscapeFacts.










Variable rich : Rich.











End EscapeFacts.



(** * Start-up *)

Section StartFacts.

Variable rich : Rich.

Lemma title_renders :
  print_error rich
    (Print (lit "[bold green]🏥 Simple TCCC Emergency Reference System[/bold green]"))
  = None.
Proof.
  apply (wrapped_renders rich (lit "bold green")
           (lit "🏥 Simple TCCC Emergency Reference System"));
    [reflexivity|].
  simpl. intuition discriminate.
Qed.

Lemma no_library_renders :
  print_error rich
    (Print (lit "[yellow]PyMuPDF not available. Please install: pip install PyMuPDF[/yellow]"))
  = None.
Proof.
  apply (wrapped_renders rich (lit "yellow")
           (lit "PyMuPDF not available. Please install: pip install PyMuPDF"));
    [reflexivity|].
  simpl. intuition discriminate.
Qed.

(** After a failure the extraction returns no text, if it returns. *)
Lemma extraction_failed_empty (message text : str) :
  extraction_failed rich message = Returns text -> text = [].
Proof.
  unfold extraction_failed, print_then.
  destruct (print_error _ _); [discriminate|]. now intros [= <-].
Qed.

(** Without a page there is no text. *)
Lemma extract_text_empty (pdf_path : str) (pdf : Pdf) (text : str) :
  (~ exists page pages, pdf = Pages (page :: pages)) ->
  extract_text_simple rich pdf_path pdf = Returns text -> text = [].
Proof.
  intros Hp. destruct pdf as [| |message|[|page pages]]; cbn [extract_text_simple].
  - discriminate.
  - unfold print_then. destruct (print_error _ _); [discriminate|].
    now intros [= <-].
  - unfold print_then at 1. destruct (print_error _ _);
      apply extraction_failed_empty.
  - unfold print_then at 1. destruct (print_error _ _);
      [apply extraction_failed_empty | now intros [= <-]].
  - exfalso. apply Hp. eauto.
Qed.

Lemma initialize_fails (pdf_path : str) (pdf : Pdf) :
  (~ exists page pages, pdf = Pages (page :: pages)) ->
  exists message, initialize rich pdf_path pdf = Raises message.
Proof.
  intros Hp. unfold initialize, print_then at 1. rewrite title_renders.
  destruct (extract_text_simple rich pdf_path pdf) as [text|message] eqn:E;
    [|eauto].
  apply extract_text_empty in E; [|exact Hp]. subst text. eauto.
Qed.

(** A document with a page, at a path that holds no opening bracket, is
    extracted and chunked. *)
Lemma initialize_starts (pdf_path page : str) (pages : list str) :
  ~ In "["%char pdf_path ->
  initialize rich pdf_path (Pages (page :: pages))
  = Returns (create_chunks (extract_pages (page :: pages))
                           default_chunk_size).
Proof.
  intros Hp. unfold initialize, print_then at 1. rewrite title_renders.
  cbn [extract_text_simple]. unfold print_then at 1. cbn [print_error].
  rewrite plain_renders.
  2:{ intros H. apply in_app_or in H as [H|H]; [|contradiction].
      simpl in H. intuition discriminate. }
  rewrite extract_pages_truthy. unfold print_then. cbn [print_error].
  rewrite plain_renders; [reflexivity|].
  intros H. repeat (apply in_app_or in H as [H|H]);
    try (simpl in H; intuition discriminate).
  now apply of_int_plain in H.
Qed.

End StartFacts.

(** X8: [main] ends with a system error whenever the file is missing,
    PyMuPDF is missing, the document cannot be read or it has no page.  A
    missing file is reported with its path, a missing library as a failed
    extraction, and so is a document without pages when the line that
    names the path renders.  A document with a page, at a path without an
    opening bracket, starts the system on its chunks; [main] then ends
    with a system error only when the query or the session raises. *)
Theorem main_start_up (rich : Rich) (pdf_path : str) (pdf : Pdf)
        (backend : str -> str) (args_query : list str) (urgent : bool)
        (inputs : list Input) :
  let ended := main rich pdf_path pdf backend args_query urgent inputs in
  ((~ exists page pages, pdf = Pages (page :: pages)) ->
   exists line, ended = SystemError line)
  /\ (pdf = NoFile ->
      ended = SystemError (lit "System Error: PDF not found: " ++ pdf_path))
  /\ (pdf = NoLibrary ->
      ended = SystemError (lit "System Error: Failed to extract text from PDF"))
  /\ (pdf = Pages [] ->
      print_error rich
        (Print (lit "📖 Processing PDF with PyMuPDF: " ++ pdf_path)) = None ->
      ended = SystemError (lit "System Error: Failed to extract text from PDF"))
  /\ (forall page pages,
        pdf = Pages (page :: pages) -> ~ In "["%char pdf_path ->
        let handbook :=
          create_chunks (extract_pages (page :: pages)) default_chunk_size in
        initialize rich pdf_path pdf = Returns handbook
        /\ forall line,
             ended = SystemError line ->
             exists message,
               line = lit "System Error: " ++ message
               /\ match args_query with
                  | _ :: _ =>
                      raised (query rich handbook backend
                                    (join (lit " ") args_query) urgent)
                      = Some message
                  | [] =>
                      status (interactive rich handbook backend inputs)
                      = Escaped message
                  end).
Proof.
  intros ended. subst ended. unfold main. repeat split.
  - intros H. destruct (initialize_fails rich pdf_path pdf H) as [m ->].
    eauto.
  - intros ->. unfold initialize, print_then. rewrite title_renders.
    reflexivity.
  - intros ->. unfold initialize, print_then at 1. rewrite title_renders.
    cbn [extract_text_simple]. unfold print_then.
    rewrite no_library_renders. reflexivity.
  - intros -> H. unfold initialize, print_then at 1. rewrite title_renders.
    cbn [extract_text_simple]. unfold print_then at 1. rewrite H.
    reflexivity.
  - subst pdf. now apply initialize_starts.
  - subst pdf. rewrite initialize_starts by assumption. intros line.
    destruct args_query as [|a args].
    + destruct (status _) as [| |message]; try discriminate.
      intros [= <-]. eauto.
    + destruct (raised _) as [message|]; try discriminate.
      intros [= <-]. eauto.
Qed.

(** A missing file, and a document without pages. *)
Lemma main_start_up_witness :
  main (mkRich plain_normalize (fun _ => None)) (lit "handbook.pdf") NoFile
       (fun prompt => prompt) [lit "shock"] false []
  = SystemError (lit "System Error: PDF not found: handbook.pdf")
  /\ main (mkRich plain_normalize (fun _ => None)) (lit "handbook.pdf")
          (Pages []) (fun prompt => prompt) [lit "shock"] false []
     = SystemError (lit "System Error: Failed to extract text from PDF").
Proof.
  split.
  - apply (proj1 (proj2 (main_start_up
                           (mkRich plain_normalize (fun _ => None))
                           (lit "handbook.pdf") NoFile
                           (fun prompt => prompt) [lit "shock"] false []))).
    reflexivity.
  - apply (proj1 (proj2 (proj2 (proj2 (main_start_up
                           (mkRich plain_normalize (fun _ => None))
                           (lit "handbook.pdf") (Pages [])
                           (fun prompt => prompt) [lit "shock"] false []))))).
    + reflexivity.
    + reflexivity.
Defined.

(** * Labels, pages and terminators *)

Section DisplayFacts.

Lemma replace_from_absent (old new s : str) :
  contains old s = false -> replace_from old new 0 s = s.
Proof.
  induction s as [|c s IH]; intros H; [reflexivity|].
  change (contains old (c :: s))
    with (startswith old (c :: s) || contains old s) in H.
  apply orb_false_iff in H as [H1 H2].
  cbn [replace_from]. rewrite H1. now rewrite IH.
Qed.

Lemma replace_from_skip (old new p rest : str) :
  replace_from old new (length p) (p ++ rest) = replace_from old new 0 rest.
Proof. induction p as [|a p IH]; simpl; auto. Qed.

(** An occurrence at the front is replaced and the scan resumes behind
    it. *)
Lemma replace_match (old new rest : str) :
  old <> [] -> replace (old ++ rest) old new = new ++ replace rest old new.
Proof.
  destruct old as [|a old]; [congruence|]. intros _.
  pose proof (startswith_self (a :: old) rest) as E.
  unfold replace. cbn [app replace_from] in *. rewrite E.
  cbn [length]. rewrite Nat.sub_succ, Nat.sub_0_r.
  now rewrite replace_from_skip.
Qed.

Lemma enumerate_from_app {A : Type} (i : Z) (l l' : list A) :
  enumerate_from i (l ++ l')
  = enumerate_from i l ++ enumerate_from (i + Z.of_nat (length l)) l'.
Proof.
  revert i. induction l as [|x l IH]; intros i.
  - simpl. now rewrite Z.add_0_r.
  - cbn [app enumerate_from length]. rewrite IH.
    now replace (i + 1 + Z.of_nat (length l))%Z
      with (i + Z.of_nat (S (length l)))%Z by lia.
Qed.

End DisplayFacts.

(** X20: the label shown for a source is the label of the chunk, except
    that a page marker at its front loses its three dashes: a label
    without the marker is shown as it is, and a label that starts with
    the marker is shown from "Page" on, the dashes behind the number
    included. *)
Theorem display_page_marker (label : str) :
  contains (lit "--- Page") label = false ->
  display_page label = label
  /\ display_page (lit "--- Page" ++ label) = lit "Page" ++ label.
Proof.
  intros H. unfold display_page. split.
  - now apply replace_from_absent.
  - rewrite replace_match by discriminate. f_equal.
    now apply replace_from_absent.
Qed.

(** The marker of page 12. *)
Lemma display_page_marker_witness :
  display_page (lit "--- Page" ++ lit " 12 ---") = lit "Page" ++ lit " 12 ---".
Proof.
  apply (proj2 (display_page_marker (lit " 12 ---") eq_refl)).
Defined.

(** X21: the extracted text grows page by page: a further page adds its
    marker, numbered from 1 in the order of the pages, and its text; a
    document without pages gives the empty text. *)
Theorem extract_pages_snoc (pages : list str) (page : str) :
  extract_pages [] = []
  /\ extract_pages (pages ++ [page])
     = extract_pages pages
       ++ lit "\n--- Page " ++ of_int (Z.of_nat (length pages) + 1)
       ++ lit " ---\n" ++ page.
Proof.
  split; [reflexivity|].
  unfold extract_pages, enumerate.
  rewrite !extract_fold, enumerate_from_app, map_app, concat_app.
  cbn [enumerate_from map concat fst snd app]. now rewrite app_nil_r.
Qed.

(** X22: the chunker does not tell the terminators apart: writing every
    exclamation mark and question mark of the text as a period gives the
    same chunks. *)
Theorem chunks_of_normalised (doc : str) (chunk_size : Z) :
  create_chunks (normalise_terminators doc) chunk_size
  = create_chunks doc chunk_size.
Proof.
  unfold create_chunks. f_equal. f_equal.
  assert (Ht : forall c,
             is_terminator (if is_terminator c then "."%char else c)
             = is_terminator c)
    by (intros c; destruct (is_terminator c) eqn:E; auto).
  induction doc as [|c doc IH]; [reflexivity|].
  cbn [normalise_terminators map re_split].
  fold (normalise_terminators doc). rewrite IH, Ht.
  destruct (re_split doc) as [|p ps]; [reflexivity|].
  destruct (is_terminator c) eqn:Ec; [|reflexivity].
  destruct doc as [|c' doc]; [reflexivity|].
  cbn [normalise_terminators map]. now rewrite Ht.
Qed.

(** * The score and the words of the query *)

Section MonotoneFacts.

Lemma sum_Z_app (a b : list Z) : sum_Z (a ++ b) = (sum_Z a + sum_Z b)%Z.
Proof. induction a as [|x a IH]; simpl; lia. Qed.

Lemma sum_Z_perm (a b : list Z) : Permutation a b -> sum_Z a = sum_Z b.
Proof. induction 1; simpl; lia. Qed.

(** More words, more hits. *)
Lemma word_hits_subset (chunk_text : str) (X Y : gset str) :
  X ⊆ Y -> (word_hits chunk_text X <= word_hits chunk_text Y)%Z.
Proof.
  intros H. rewrite (union_difference_L X Y H). unfold word_hits.
  assert (Hd : X ## Y ∖ X).
  { apply elem_of_disjoint. intros x Hx Hy.
    apply elem_of_difference in Hy. tauto. }
  rewrite (sum_Z_perm _ _ (Permutation_map (count chunk_text)
                             (elements_disj_union X (Y ∖ X) Hd))).
  rewrite map_app, sum_Z_app.
  pose proof (sum_Z_nonneg _ (word_hits_counts chunk_text (Y ∖ X))). lia.
Qed.

Lemma filter_length_le {A : Type} (p q : A -> bool) (l : list A) :
  (forall x, In x l -> p x = true -> q x = true) ->
  length (List.filter p l) <= length (List.filter q l).
Proof.
  induction l as [|x l IH]; intros H; [reflexivity|].
  cbn [List.filter].
  assert (IH' : length (List.filter p l) <= length (List.filter q l))
    by (apply IH; intros y Hy; apply H; now right).
  destruct (p x) eqn:Ep.
  - rewrite (H x (or_introl eq_refl) Ep). simpl. lia.
  - destruct (q x); simpl; lia.
Qed.

End MonotoneFacts.

(** X23: a query with more words scores no lower: when every lower-cased
    word of one query is a word of another, each chunk scores at least as
    much for the second as for the first. *)
Theorem more_words_more_score (q1 q2 : str) (chunk : Chunk) :
  (forall word, In word (split (lower q1)) -> In word (split (lower q2))) ->
  (chunk_score q1 chunk <= chunk_score q2 chunk)%Z.
Proof.
  intros H. rewrite !chunk_score_eq. unfold spec_score.
  assert (Hw : (word_hits (lower (text chunk)) (query_words q1)
                <= word_hits (lower (text chunk)) (query_words q2))%Z).
  { apply word_hits_subset. intros w. unfold query_words.
    rewrite !elem_of_list_to_set, !list_elem_of_In. apply H. }
  assert (Hb : (term_bonus (lower q1) (lower (text chunk))
                <= term_bonus (lower q2) (lower (text chunk)))%Z).
  { unfold term_bonus.
    enough (length (List.filter
                      (fun term => contains term (lower (text chunk))
                                   && contains term (lower q1))
                      medical_terms)
            <= length (List.filter
                         (fun term => contains term (lower (text chunk))
                                      && contains term (lower q2))
                         medical_terms)) by lia.
    apply filter_length_le. intros t Ht Hp.
    apply andb_true_iff in Hp as [Hp1 Hp2]. rewrite Hp1. simpl.
    pose proof medical_terms_spacefree as Hm.
    rewrite List.Forall_forall in Hm. destruct (Hm t Ht) as [Hs Hne].
    rewrite contains_split in Hp2 |- * by assumption.
    apply existsb_exists in Hp2 as (w & Hw1 & Hw2).
    apply existsb_exists. exists w. split; auto. }
  lia.
Qed.

(** A query and the query with a word more. *)
Lemma more_words_more_score_witness :
  (chunk_score (lit "wound")
               (mkChunk (lit "Pack the wound.") 0 (lit "Final chunk"))
   <= chunk_score (lit "pack WOUND")
                  (mkChunk (lit "Pack the wound.") 0 (lit "Final chunk")))%Z.
Proof.
  apply more_words_more_score. intros word. vm_compute. tauto.
Defined.
